(** * uqbar.io: file-system helpers

    A shallow embedding of [uqbar/io/__init__.py]: the directory walker
    [walk], the write-if-changed helper [write], the common-prefix finder
    [find_common_prefix] and the path relativizer [relative_to].

    The Python functions are written against [pathlib] and the operating
    system.  Both are modelled here for a POSIX host without symbolic
    links: [Pathlib] is the pure path algebra ([PurePosixPath]); [Os] is a
    file-system store together with the system calls the code performs
    through [pathlib.Path]. *)

From Equations Require Import Equations.
From stdpp Require Import base decidable option list strings gmap sorting.
From Stdlib Require Import Ascii OrderedTypeEx.

Set Warnings "-clear-no-such-hyp,-register-all".

Local Open Scope string_scope.
Local Open Scope list_scope.

(** ** Exceptions *)

(** The error numbers of the system calls in the model, each raised by
    Python as its own subclass of [OSError]: [FileNotFoundError],
    [NotADirectoryError], [FileExistsError], [IsADirectoryError]. *)
Inductive errno := ENOENT | ENOTDIR | EEXIST | EISDIR.

Inductive exn :=
| ValueError (msg : string)
| OSError (e : errno).

#[global] Instance errno_eq_dec : EqDecision errno.
Proof. solve_decision. Defined.

#[global] Instance exn_eq_dec : EqDecision exn.
Proof. solve_decision. Defined.

(** ** Pure paths *)

Module Pathlib.

(** The root of a POSIX pure path: none (a relative path), a single slash,
    or exactly two leading slashes, which [pathlib] keeps apart from a
    single one ([PurePosixPath('//a').root == '//']). *)
Inductive Root := NoRoot | Slash | DoubleSlash.

(** A pure path is its root and its segments; [parts] is the root (when
    there is one) followed by the segments. *)
Record Path := MkPath { root : Root; segs : list string }.

#[global] Instance Root_eq_dec : EqDecision Root.
Proof. solve_decision. Defined.

#[global] Instance Path_eq_dec : EqDecision Path.
Proof. solve_decision. Defined.

Definition root_str (r : Root) : string :=
  match r with NoRoot => "" | Slash => "/" | DoubleSlash => "//" end.

Definition parts (p : Path) : list string :=
  match root p with
  | NoRoot => segs p
  | r => root_str r :: segs p
  end.

Definition is_absolute (p : Path) : bool :=
  match root p with NoRoot => false | _ => true end.

(** *** Parsing and printing *)

(** [split_on c s] cuts [s] at every occurrence of [c] ([str.split]). *)
Fixpoint split_on (c : ascii) (s : string) : list string :=
  match s with
  | EmptyString => [EmptyString]
  | String a s' =>
      if Ascii.eqb a c then EmptyString :: split_on c s'
      else match split_on c s' with
           | [] => [String a EmptyString]
           | w :: ws => String a w :: ws
           end
  end.

Fixpoint leading (c : ascii) (s : string) : nat :=
  match s with
  | String a s' => if Ascii.eqb a c then S (leading c s') else 0
  | EmptyString => 0
  end.

Definition keep_segment (s : string) : bool :=
  negb (String.eqb s "") && negb (String.eqb s ".").

(** [pathlib.Path(s)] for a string [s]: two leading slashes (exactly) make
    the root ["//"], any other positive number the root ["/"]; empty
    segments and ["."] segments are dropped, [".."] segments are kept. *)
Definition of_string (s : string) : Path :=
  MkPath (match leading "/" s with
          | 0 => NoRoot
          | 2 => DoubleSlash
          | _ => Slash
          end)
         (List.filter keep_segment (split_on "/" s)).

Fixpoint join (sep : string) (l : list string) : string :=
  match l with
  | [] => ""
  | [x] => x
  | x :: l' => x ++ sep ++ join sep l'
  end.

(** [str(p)]; the empty relative path prints as ["."]. *)
Definition str (p : Path) : string :=
  match root p, segs p with
  | NoRoot, [] => "."
  | r, l => root_str r ++ join "/" l
  end.

(** *** Navigation *)

(** [p.parent]: the path without its last segment; a path without segments
    is its own parent. *)
Definition parent (p : Path) : Path :=
  MkPath (root p) (removelast (segs p)).

(** [p.parents]: the proper ancestors, nearest first. *)
Definition parents (p : Path) : list Path :=
  List.map (fun k => MkPath (root p) (take k (segs p)))
           (List.rev (seq 0 (length (segs p)))).

(** [p / q]: an absolute [q] replaces [p]. *)
Definition joinpath (p q : Path) : Path :=
  match root q with
  | NoRoot => MkPath (root p) (segs p ++ segs q)
  | _ => q
  end.

(** [Path] applied to segment names (names without slashes); with no
    name at all it is the path ["."]. *)
Definition of_names (names : list string) : Path := MkPath NoRoot names.

(** [p.relative_to(other)]: [other]'s parts must be the first parts of
    [p]; the result is the rest of [p], as a relative path. *)
Definition path_relative_to (p other : Path) : exn + Path :=
  if decide (root p = root other ∧ segs other `prefix_of` segs p)
  then inr (MkPath NoRoot (drop (length (segs other)) (segs p)))
  else inl (ValueError ("'" ++ str p ++ "' does not start with '"
                            ++ str other ++ "'")).

(** [p.absolute()] in working directory [cwd] (the names of the directories
    from the file-system root down): an absolute path is returned as it
    is, otherwise the working directory is put in front.  Nothing is
    normalized: [".."] segments stay. *)
Definition absolute (cwd : list string) (p : Path) : Path :=
  if is_absolute p then p else joinpath (MkPath Slash cwd) p.

End Pathlib.

Import Pathlib.

(** ** [collections.Counter] with keys in insertion order *)

Module Counter.

(** The counter is a dictionary from paths to counts; a Python dictionary
    lists its items in the order in which the keys were first inserted. *)
Definition t := list (Path * nat).

Definition empty : t := [].

(** [counter[k] += 1] *)
Fixpoint incr (c : t) (k : Path) : t :=
  match c with
  | [] => [(k, 1)]
  | (k', n) :: c' =>
      if decide (k' = k) then (k', S n) :: c' else (k', n) :: incr c' k
  end.

(** [counter.update(iterable)] *)
Definition update (c : t) (ks : list Path) : t := foldl incr c ks.

(** [counter[k]], zero for a missing key *)
Fixpoint get (c : t) (k : Path) : nat :=
  match c with
  | [] => 0
  | (k', n) :: c' => if decide (k' = k) then n else get c' k
  end.

Definition items (c : t) : list (Path * nat) := c.

End Counter.

(** ** [sorted]: a stable sort *)

(** [sorted lt l] orders [l] by the comparison [lt] and keeps elements that
    [lt] does not tell apart in the order in which [l] has them. *)
Section Sorted.
Context {A : Type} (lt : A -> A -> bool).

Fixpoint insert_sorted (x : A) (l : list A) : list A :=
  match l with
  | [] => [x]
  | y :: l' => if lt y x then y :: insert_sorted x l' else x :: l
  end.

Fixpoint sorted (l : list A) : list A :=
  match l with
  | [] => []
  | x :: l' => insert_sorted x (sorted l')
  end.
End Sorted.

(** [sorted(l, key=key)] *)
Definition sorted_by_key {A} (key : A -> nat) : list A -> list A :=
  sorted (fun a b => (key a <? key b)%nat).

(** ** The common-prefix finder *)

Definition find_common_prefix (cwd : list string) (paths : list Path)
  : option Path :=
  let counter :=
    foldl (fun counter path =>
             let path := absolute cwd path in
             let counter := Counter.update counter [path] in
             Counter.update counter (parents path))
          Counter.empty paths in
  let paths' :=
    sorted_by_key (fun x => length (parts x))
           ((fun item => item.1) <$>
              filter (fun item => length paths <= item.2)
                     (Counter.items counter)) in
  last paths'.

(** ** The file system and the system calls *)

Module Os.

Inductive node :=
| RegFile (data : string)
| Directory.

#[global] Instance node_eq_dec : EqDecision node.
Proof. solve_decision. Defined.

(** The state of the process and of the machine: the working directory,
    the file-system store (keyed by the names from the root directory down;
    the root directory has the key [[]]), what was printed, and the log of
    the files written through [open(..., 'w')]. *)
Record world := World {
  cwd : list string;
  files : gmap (list string) node;
  stdout : list string;
  written : list (list string * string)
}.

(** Path resolution as the kernel does it, from directory [dir]: each
    name is looked up in a directory; [".."] is the parent directory (the
    root directory is its own parent), ["."] and the empty name are the
    directory itself. *)
Fixpoint resolve (fs : gmap (list string) node) (dir : list string)
  (names : list string) : errno + list string :=
  match names with
  | [] => inr dir
  | n :: rest =>
      match fs !! dir with
      | Some Directory =>
          resolve fs (if decide (n = "..") then removelast dir
                      else if decide (n = "." ∨ n = "") then dir
                      else dir ++ [n]) rest
      | Some (RegFile _) => inl ENOTDIR
      | None => inl ENOENT
      end
  end.

Definition locate (w : world) (p : Path) : errno + list string :=
  resolve (files w) (if is_absolute p then [] else cwd w) (segs p).

Definition stat (w : world) (p : Path) : errno + node :=
  match locate w p with
  | inl e => inl e
  | inr names =>
      match files w !! names with
      | Some n => inr n
      | None => inl ENOENT
      end
  end.

(** [open('r')] reads in text mode with universal newlines: ["\r\n"] and
    a lone ["\r"] both arrive as ["\n"]. *)
Definition CR : ascii := ascii_of_nat 13.
Definition LF : ascii := ascii_of_nat 10.

Fixpoint universal_newlines (s : string) : string :=
  match s with
  | EmptyString => EmptyString
  | String c s' =>
      if Ascii.eqb c CR then
        String LF (match s' with
                   | String c' s'' =>
                       if Ascii.eqb c' LF then universal_newlines s''
                       else universal_newlines s'
                   | EmptyString => EmptyString
                   end)
      else String c (universal_newlines s')
  end.

(** *** Commands: state and exceptions *)

Definition io (A : Type) : Type := world -> exn + (A * world).

Definition ret {A} (x : A) : io A := fun w => inr (x, w).

Definition bind {A B} (m : io A) (k : A -> io B) : io B :=
  fun w => match m w with
           | inl e => inl e
           | inr (x, w') => k x w'
           end.

Definition raise {A} (e : exn) : io A := fun _ => inl e.

Definition when (b : bool) (m : io unit) : io unit :=
  if b then m else ret tt.

(** [try m except OSError as e: handler e] *)
Definition try_os {A} (m : io A) (handler : errno -> io A) : io A :=
  fun w => match m w with
           | inl (OSError e) => handler e w
           | r => r
           end.

End Os.

Import Os.

Notation "'do' x <- m ; k" := (bind m (fun x => k))
  (at level 10, x name, m at level 100, k at level 200).

Module OsCalls.

(** [path.exists()]: [ENOENT] and [ENOTDIR] mean "no". *)
Definition exists_ (p : Path) : io bool :=
  fun w => inr (match stat w p with inr _ => true | inl _ => false end, w).

Definition is_file (p : Path) : io bool :=
  fun w => inr (match stat w p with
                | inr (RegFile _) => true
                | _ => false
                end, w).

Definition is_dir (p : Path) : io bool :=
  fun w => inr (match stat w p with
                | inr Directory => true
                | _ => false
                end, w).

(** [with path.open('r') as f: f.read()] *)
Definition open_read (p : Path) : io string :=
  fun w => match stat w p with
           | inr (RegFile data) => inr (universal_newlines data, w)
           | inr Directory => inl (OSError EISDIR)
           | inl e => inl (OSError e)
           end.

(** A new entry needs its parent directory. *)
Definition create (w : world) (names : list string) (n : node)
  : exn + gmap (list string) node :=
  match names with
  | [] => inl (OSError ENOENT)
  | _ =>
      match files w !! removelast names with
      | Some Directory => inr (<[names := n]> (files w))
      | Some (RegFile _) => inl (OSError ENOTDIR)
      | None => inl (OSError ENOENT)
      end
  end.

(** [with path.open('w') as f: f.write(contents)]: the file is created or
    truncated; on a POSIX host the text is stored as it is. *)
Definition open_write (p : Path) (contents : string) : io unit :=
  fun w =>
    match locate w p with
    | inl e => inl (OSError e)
    | inr names =>
        let log := written w ++ [(names, contents)] in
        match files w !! names with
        | Some Directory => inl (OSError EISDIR)
        | Some (RegFile _) =>
            inr (tt, World (cwd w) (<[names := RegFile contents]> (files w))
                           (stdout w) log)
        | None =>
            match create w names (RegFile contents) with
            | inl e => inl e
            | inr fs => inr (tt, World (cwd w) fs (stdout w) log)
            end
        end
    end.

(** [os.mkdir(path)] *)
Definition os_mkdir (p : Path) : io unit :=
  fun w =>
    match locate w p with
    | inl e => inl (OSError e)
    | inr names =>
        match files w !! names with
        | Some _ => inl (OSError EEXIST)
        | None =>
            match create w names Directory with
            | inl e => inl e
            | inr fs => inr (tt, World (cwd w) fs (stdout w) (written w))
            end
        end
    end.

Definition print (line : string) : io unit :=
  fun w => inr (tt, World (cwd w) (files w) (stdout w ++ [line]) (written w)).

(** [path.mkdir(parents=False, exist_ok=exist_ok)] *)
Definition mkdir_one (p : Path) (exist_ok : bool) : io unit :=
  try_os (os_mkdir p)
    (fun e =>
       match e with
       | ENOENT => raise (OSError e)
       | _ => do d <- is_dir p ;
              if negb exist_ok || negb d then raise (OSError e) else ret tt
       end).

(** [path.mkdir(parents=True, exist_ok=exist_ok)], by recursion on the
    segments of the path, last one first: a missing parent is made first
    (with [exist_ok=True]) and the directory itself is tried again. *)
Fixpoint mkdir_parents (r : Root) (rsegs : list string) (exist_ok : bool)
  : io unit :=
  let self := MkPath r (rev rsegs) in
  try_os (os_mkdir self)
    (fun e =>
       match e with
       | ENOENT =>
           match rsegs with
           | [] => raise (OSError e)
           | _ :: rparent =>
               do _ <- mkdir_parents r rparent true ;
               mkdir_one self exist_ok
           end
       | _ => do d <- is_dir self ;
              if negb exist_ok || negb d then raise (OSError e) else ret tt
       end).

Definition mkdir (p : Path) (parents exist_ok : bool) : io unit :=
  if parents then mkdir_parents (root p) (rev (segs p)) exist_ok
  else mkdir_one p exist_ok.

End OsCalls.

Import OsCalls.

(** ** Write-if-changed *)

(** What a Python function hands back: [None] when it falls off its end. *)
Inductive value := PyNone | PyBool (b : bool).

(** [bool(v)] *)
Definition truthy (v : value) : bool :=
  match v with PyBool b => b | PyNone => false end.

Definition write (contents : string) (path : Path) (verbose : bool)
  : io value :=
  do e <- exists_ path ;
  if e then
    do old_contents <- open_read path ;
    if decide (old_contents = contents) then
      do _ <- when verbose (print ("preserved: " ++ str path)) ;
      ret (PyBool false)
    else
      do _ <- open_write path contents ;
      do _ <- when verbose (print ("rewrote: " ++ str path)) ;
      ret (PyBool true)
  else
    do e' <- exists_ path ;
    if negb e' then
      do pe <- exists_ (parent path) ;
      do _ <- when (negb pe) (mkdir (parent path) true false) ;
      do _ <- open_write path contents ;
      do _ <- when verbose (print ("wrote: " ++ str path)) ;
      ret PyNone
    else ret PyNone.

(** ** The path relativizer *)

Definition getcwd : io (list string) := fun w => inr (cwd w, w).

Definition lift {A} (r : exn + A) : io A :=
  fun w => match r with inl e => inl e | inr x => inr (x, w) end.

Definition relative_to (source_path target_path : Path) : io Path :=
  do cwd <- getcwd ;
  let source_path := absolute cwd source_path in
  do f <- is_file source_path ;
  let source_path := if f then parent source_path else source_path in
  let target_path := absolute cwd target_path in
  match find_common_prefix cwd [source_path; target_path] with
  | None => raise (ValueError "No common prefix")
  | Some common_prefix =>
      do source_path <- lift (path_relative_to source_path common_prefix) ;
      do target_path <- lift (path_relative_to target_path common_prefix) ;
      let result := of_names (replicate (length (parts source_path)) "..") in
      ret (joinpath result target_path)
  end.

(** ** The directory walker *)

(** A finite directory tree: what [iterdir] lists for a directory, in the
    order in which the system hands the entries out. *)
Inductive tree :=
| File
| Dir (entries : list (string * tree)).

Definition is_dir_tree (t : tree) : bool :=
  match t with Dir _ => true | File => false end.

Fixpoint tree_size (t : tree) : nat :=
  match t with
  | File => 1
  | Dir entries =>
      S ((fix sum (es : list (string * tree)) : nat :=
            match es with
            | [] => 0
            | e :: es' => tree_size e.2 + sum es'
            end) entries)
  end.

Definition entries_size (es : list (string * tree)) : nat :=
  list_sum (tree_size <$> (snd <$> es)).

(** Paths compare as their parts do, and strings by their characters. *)
Fixpoint parts_lt (l1 l2 : list string) : bool :=
  match l1, l2 with
  | _, [] => false
  | [], _ :: _ => true
  | x :: l1', y :: l2' =>
      match String.compare x y with
      | Lt => true
      | Eq => parts_lt l1' l2'
      | Gt => false
      end
  end.

Definition path_lt (p q : Path) : bool := parts_lt (parts p) (parts q).

(** [root_path.iterdir()]: the children, each with what is found there. *)
Definition iterdir (root_path : Path) (entries : list (string * tree))
  : list (Path * tree) :=
  (fun e => (joinpath root_path (of_names [e.1]), e.2)) <$> entries.

(** The children that are directories, each with its own entries. *)
Definition directories (l : list (Path * tree))
  : list (Path * list (string * tree)) :=
  omap (fun e => match e.2 with
                 | Dir es => Some (e.1, es)
                 | File => None
                 end) l.

Definition triple : Type := Path * list Path * list Path.

(** The generator, as the list of what it yields. *)
Equations? walk (top_down : bool) (root_path : Path)
  (entries : list (string * tree)) : list triple
  by wf (entries_size entries) lt :=
walk top_down root_path entries :=
  let listing :=
    sorted (fun a b => path_lt a.1 b.1) (iterdir root_path entries) in
  let directory_paths := (directories listing).*1 in
  let file_paths :=
    (List.filter (fun e => negb (is_dir_tree e.2)) listing).*1 in
  (if top_down then [(root_path, directory_paths, file_paths)] else []) ++
  each (directories listing) _ ++
  (if negb top_down then [(root_path, directory_paths, file_paths)] else [])
where each (ds : list (Path * list (string * tree)))
  (H : Forall (fun d => entries_size d.2 < entries_size entries) ds)
  : list triple by struct ds :=
  each [] _ := [];
  each ((directory_path, es) :: ds') H :=
    walk top_down directory_path es ++ each ds' _.
Proof.
  - by inversion H.
  - by inversion H.
  - assert (Hins : forall x l,
      insert_sorted (fun a b : Path * tree => path_lt a.1 b.1) x l ≡ₚ x :: l).
    { intros x l. induction l as [|y l IH]; simpl; [done|].
      destruct (path_lt y.1 x.1); [|done].
      rewrite IH. apply Permutation_swap. }
    assert (Hperm : forall l,
      sorted (fun a b : Path * tree => path_lt a.1 b.1) l ≡ₚ l).
    { intros l. induction l as [|x l IH]; simpl; [done|].
      by rewrite Hins, IH. }
    apply Forall_forall. intros [n es'] Hin.
    apply list_elem_of_omap in Hin as ([n' t] & Hin & Heq). simpl in *.
    destruct t as [|es'']; simplify_eq.
    subst listing. rewrite Hperm in Hin.
    apply list_elem_of_fmap in Hin as ([m t] & Heq & Hin). simplify_eq/=.
    apply list_elem_of_split in Hin as (l1 & l2 & ->).
    unfold entries_size. rewrite !fmap_app, list_sum_app. simpl.
    assert (forall es, (fix sum (es : list (string * tree)) : nat :=
              match es with
              | [] => 0
              | e :: es' => tree_size e.2 + sum es'
              end) es = list_sum (tree_size <$> es.*2)) as ->.
    { intros es. induction es as [|e es IH]; simpl; [done|]. by rewrite IH. }
    lia.
Qed.

(** * Vocabulary of the properties *)

(** ** Ancestors *)

(** [is_ancestor q p]: [q] is an ancestor of [p] or [p] itself, that is,
    the parts of [q] are the first parts of [p]. *)
Definition is_ancestor (q p : Path) : Prop :=
  root q = root p ∧ segs q `prefix_of` segs p.

#[global] Instance is_ancestor_dec q p : Decision (is_ancestor q p).
Proof. unfold is_ancestor. apply _. Defined.

(** A path and its proper ancestors, as the loop of [find_common_prefix]
    counts them. *)
Definition lineage (p : Path) : list Path := p :: parents p.

(** ** The counter *)

(** Every key is listed once, and with a positive count. *)
Definition counter_wf (c : Counter.t) : Prop :=
  NoDup c.*1 ∧ Forall (fun kc => 0 < kc.2) c.

(** The loop of [find_common_prefix], from counter [c] on. *)
Definition tally (cwd : list string) (c : Counter.t) (paths : list Path)
  : Counter.t :=
  foldl (fun counter path =>
           let path := absolute cwd path in
           let counter := Counter.update counter [path] in
           Counter.update counter (parents path))
        c paths.

(** [common q paths]: [q] is an ancestor of every path of [paths] (made
    absolute), or that path itself. *)
Definition common (cwd : list string) (q : Path) (paths : list Path) : Prop :=
  Forall (fun p => is_ancestor q (absolute cwd p)) paths.

(** ** The relativizer *)

(** The directory from which [relative_to] starts: the parent of the
    source (made absolute) when the source is a regular file at the time
    of the call, else the source itself. *)
Definition effective_source (w : world) (source_path : Path) : Path :=
  let source_path := absolute (cwd w) source_path in
  match stat w source_path with
  | inr (RegFile _) => parent source_path
  | _ => source_path
  end.

(** [os.path.normpath] on the segments of a path: empty and ["."]
    components go away, and a [".."] component takes the component before
    it away (at the root of an absolute path it goes away itself). *)
Definition normpath_step (r : Root) (new_comps : list string)
  (comp : string) : list string :=
  if decide (comp = "" ∨ comp = ".") then new_comps
  else if decide (comp ≠ ".." ∨ (r = NoRoot ∧ new_comps = [])
                  ∨ last new_comps = Some "..")
       then new_comps ++ [comp]
       else removelast new_comps.

Definition normpath (p : Path) : Path :=
  MkPath (root p) (foldl (normpath_step (root p)) [] (segs p)).

(** A segment that names an entry of a directory. *)
Definition proper (s : string) : Prop := s ≠ "" ∧ s ≠ "." ∧ s ≠ "..".

#[global] Instance proper_dec s : Decision (proper s).
Proof. unfold proper. apply _. Defined.

(** A world in which [/a/x] is a directory and [/a/f.txt] a regular
    file, so that [/a/x/../f.txt] names that file. *)
Definition dotdot_world : world :=
  World ["a"]
        (list_to_map [([], Directory); (["a"], Directory);
                      (["a"; "x"], Directory);
                      (["a"; "f.txt"], RegFile "text")])
        [] [].

(** A world in which [/a/b/c/file.txt] is a regular file. *)
Definition scenario_world : world :=
  World []
        (list_to_map [([], Directory); (["a"], Directory);
                      (["a"; "b"], Directory); (["a"; "b"; "c"], Directory);
                      (["a"; "b"; "c"; "file.txt"], RegFile "text")])
        [] [].

(** ** The walker *)

(** The sorted listing of a directory, and the triple [walk] yields for
    it. *)
Definition listing (root_path : Path) (entries : list (string * tree))
  : list (Path * tree) :=
  sorted (fun a b => path_lt a.1 b.1) (iterdir root_path entries).

Definition triple_of (root_path : Path) (entries : list (string * tree))
  : triple :=
  (root_path,
   (directories (listing root_path entries)).*1,
   (List.filter (fun e => negb (is_dir_tree e.2))
                (listing root_path entries)).*1).

(** [inside p es q es']: the directory at [q], with entries [es'], is a
    subdirectory of the directory at [p], with entries [es], or a
    descendant of one. *)
Inductive inside (p : Path) (es : list (string * tree))
  : Path -> list (string * tree) -> Prop :=
| inside_child n es' :
    (n, Dir es') ∈ es ->
    inside p es (joinpath p (of_names [n])) es'
| inside_deeper n es' q es'' :
    (n, Dir es') ∈ es ->
    inside (joinpath p (of_names [n])) es' q es'' ->
    inside p es q es''.

(** A small tree: [/r] holds the directories [a] and [b] and the file [f];
    [b] holds the directory [y] and the file [z]. *)
Definition sample_entries : list (string * tree) :=
  [("b", Dir [("z", File); ("y", Dir [])]); ("a", Dir []); ("f", File)].

(** ** The file system *)

(** The directory at which the resolution of a path starts. *)
Definition start_dir (w : world) (r : Root) : list string :=
  match r with NoRoot => cwd w | _ => [] end.

(** Every entry but the root directory lies in a directory. *)
Definition tree_shaped (fs : gmap (list string) node) : Prop :=
  map_Forall (fun names _ =>
                names = [] ∨ fs !! removelast names = Some Directory) fs.

(** The root directory and the working directory exist, and the store
    has the shape of a tree. *)
Definition world_wf (w : world) : Prop :=
  files w !! [] = Some Directory ∧
  files w !! cwd w = Some Directory ∧
  tree_shaped (files w).

#[global] Instance world_wf_dec w : Decision (world_wf w).
Proof. unfold world_wf, tree_shaped. apply _. Defined.

(** [makedirs fs dir names]: the store [fs] with a directory made, below
    [dir], at every missing step along [names]. *)
Fixpoint makedirs (fs : gmap (list string) node) (dir : list string)
  (names : list string) : gmap (list string) node :=
  match names with
  | [] => fs
  | n :: rest =>
      makedirs (match fs !! (dir ++ [n]) with
                | None => <[dir ++ [n] := Directory]> fs
                | Some _ => fs
                end) (dir ++ [n]) rest
  end.

(** A world with the root directory only, and one in which [/new] is a
    regular file. *)
Definition bare_world : world :=
  World [] (list_to_map [([], Directory)]) [] [].

Definition blocked_world : world :=
  World [] (list_to_map [([], Directory); (["new"], RegFile "text")]) [] [].

(** A world with the working directory [/home]. *)
Definition home_world : world :=
  World ["home"] (list_to_map [([], Directory); (["home"], Directory)]) [] [].

(** The text ["X"] followed by a carriage return. *)
Definition text_with_cr : string := String "X" (String CR EmptyString).

(** The world after [write] to the destination [l ++ [x]] (from root
    [r]) when it does not exist. *)
Definition written_world (w : world) (r : Root) (l : list string)
  (x : string) (contents : string) (verbose : bool) : world :=
  World (cwd w)
        (<[start_dir w r ++ l ++ [x] := RegFile contents]>
           (makedirs (files w) (start_dir w r) l))
        (stdout w
         ++ (if verbose
             then [("wrote: " ++ str (MkPath r (l ++ [x])))%string]
             else []))
        (written w ++ [(start_dir w r ++ l ++ [x], contents)]).

(** [bare_world] after [write("X", "/new/deep/path/f.txt")], and
    [home_world] after [write] of [text_with_cr] to [f.txt]. *)
Definition scenario_written : world :=
  written_world bare_world Slash ["new"; "deep"; "path"] "f.txt" "X" false.

Definition cr_written : world :=
  written_world home_world NoRoot [] "f.txt" text_with_cr false.

(** [no_cr s]: the text [s] holds no carriage return. *)
Fixpoint no_cr (s : string) : bool :=
  match s with
  | EmptyString => true
  | String c s' => negb (Ascii.eqb c CR) && no_cr s'
  end.

(** [grows w w']: from [w] to [w'] nothing but the store changed, and
    the store only gained directories. *)
Definition grows (w w' : world) : Prop :=
  cwd w' = cwd w ∧ stdout w' = stdout w ∧ written w' = written w ∧
  (forall key v, files w !! key = Some v -> files w' !! key = Some v) ∧
  (forall key v, files w' !! key = Some v ->
                 files w !! key = Some v ∨
                 (files w !! key = None ∧ v = Directory)).

(** The number of directories in a tree, the root of the tree counted. *)
Fixpoint directory_count (t : tree) : nat :=
  match t with
  | File => 0
  | Dir entries =>
      S ((fix sum (es : list (string * tree)) : nat :=
            match es with
            | [] => 0
            | e :: es' => directory_count e.2 + sum es'
            end) entries)
  end.

(** * Properties *)


Lemma insert_sorted_perm {A} (lt : A -> A -> bool) x l :
  insert_sorted lt x l ≡ₚ x :: l.
Proof.
  induction l as [|y l IH]; simpl; [done|].
  destruct (lt y x); [|done]. rewrite IH. apply Permutation_swap.
Qed.

Lemma sorted_perm {A} (lt : A -> A -> bool) l : sorted lt l ≡ₚ l.
Proof.
  induction l as [|x l IH]; simpl; [done|].
  by rewrite insert_sorted_perm, IH.
Qed.

Lemma tree_size_Dir es : tree_size (Dir es) = S (entries_size es).
Proof.
  simpl. f_equal. induction es as [|e es IH]; simpl; [done|].
  unfold entries_size in *. simpl. by rewrite IH.
Qed.

Lemma entries_size_elem n t es :
  (n, t) ∈ es -> tree_size t <= entries_size es.
Proof.
  intros (l1 & l2 & ->)%list_elem_of_split. unfold entries_size.
  rewrite !fmap_app, list_sum_app. simpl. lia.
Qed.

Lemma directories_smaller lt root_path es :
  Forall (fun d => entries_size d.2 < entries_size es)
         (directories (sorted lt (iterdir root_path es))).
Proof.
  apply Forall_forall. intros [n es'] Hin.
  apply list_elem_of_omap in Hin as ([n' t] & Hin & Heq). simpl in *.
  destruct t; simplify_eq.
  rewrite sorted_perm in Hin.
  apply list_elem_of_fmap in Hin as ([m t] & Heq & Hin). simplify_eq/=.
  apply entries_size_elem in Hin.
  rewrite tree_size_Dir in Hin. lia.
Qed.


(** ** Ancestors *)


Lemma is_ancestor_refl p : is_ancestor p p.
Proof. split; done. Qed.

Lemma is_ancestor_trans p q r :
  is_ancestor p q -> is_ancestor q r -> is_ancestor p r.
Proof. intros [? ?] [? ?]. split; [congruence | by etrans]. Qed.

Lemma is_ancestor_antisym p q : is_ancestor p q -> is_ancestor q p -> p = q.
Proof.
  destruct p as [r1 l1], q as [r2 l2]. intros [? H1] [? H2]. simpl in *.
  f_equal; [done|]. by apply (anti_symm prefix).
Qed.


(** Two ancestors of one path lie on one line: the one with no more parts
    than the other is its ancestor. *)
Lemma is_ancestor_chain c r p :
  is_ancestor c p -> is_ancestor r p ->
  length (parts c) <= length (parts r) -> is_ancestor c r.
Proof.
  intros [Hc1 Hc2] [Hr1 Hr2] Hlen. split; [congruence|].
  destruct (prefix_weak_total _ _ _ Hc2 Hr2) as [?|Hrc]; [done|].
  assert (length (segs c) <= length (segs r)) as Hle.
  { unfold parts in Hlen. rewrite Hc1, Hr1 in Hlen.
    destruct (root p); simpl in Hlen; lia. }
  by rewrite (prefix_length_eq _ _ Hrc Hle).
Qed.

Lemma lineage_takes p :
  lineage p =
  (fun k => MkPath (root p) (take k (segs p)))
    <$> List.rev (seq 0 (S (length (segs p)))).
Proof.
  unfold lineage, parents. rewrite seq_S, rev_app_distr. simpl.
  rewrite firstn_all. by destruct p.
Qed.

Lemma elem_of_lineage q p : q ∈ lineage p <-> is_ancestor q p.
Proof.
  rewrite lineage_takes, list_elem_of_fmap. split.
  - intros (k & -> & _). split; [done|]. apply prefix_take.
  - intros [Hr [rest Hp]]. exists (length (segs q)). split.
    + destruct q as [r l]. simpl in *. subst r. f_equal.
      by rewrite Hp, take_app_length.
    + rewrite list_elem_of_In, <- in_rev, in_seq.
      rewrite Hp, length_app. lia.
Qed.

Lemma NoDup_lineage p : NoDup (lineage p).
Proof.
  rewrite lineage_takes. apply NoDup_fmap_2_strong.
  - intros i j Hi Hj Heq.
    rewrite list_elem_of_In, <- in_rev, in_seq in Hi, Hj.
    apply (f_equal (fun x => length (segs x))) in Heq. simpl in Heq.
    rewrite !length_take in Heq. lia.
  - rewrite NoDup_ListNoDup. apply NoDup_rev, seq_NoDup.
Qed.

(** ** The counter *)

Module CounterFacts.
Import Counter.


Lemma incr_keys c k q : q ∈ (incr c k).*1 <-> q = k ∨ q ∈ c.*1.
Proof.
  induction c as [|[k' n] c IH]; simpl.
  - rewrite list_elem_of_singleton. set_solver.
  - destruct (decide (k' = k)) as [->|]; simpl; set_solver.
Qed.

Lemma get_incr c k q :
  get (incr c k) q = get c q + (if decide (k = q) then 1 else 0).
Proof.
  induction c as [|[k' n] c IH]; simpl.
  - repeat case_decide; simplify_eq; lia.
  - destruct (decide (k' = k)) as [->|]; simpl;
      repeat case_decide; simplify_eq; lia.
Qed.

Lemma wf_empty : counter_wf empty.
Proof. split; [apply NoDup_nil_2 | apply Forall_nil_2]. Qed.

Lemma wf_incr c k : counter_wf c -> counter_wf (incr c k).
Proof.
  intros [Hnd Hpos]. induction c as [|[k' n] c IH]; simpl.
  - split; [apply NoDup_singleton | by apply Forall_singleton; simpl; lia].
  - apply NoDup_cons in Hnd as [Hk' Hnd]. apply Forall_cons in Hpos as [? Hpos].
    destruct (decide (k' = k)) as [->|Hne]; simpl.
    + split; [by apply NoDup_cons | apply Forall_cons; simpl; split; [lia|done]].
    + destruct (IH Hnd Hpos) as [IH1 IH2]. split.
      * apply NoDup_cons. split; [|done]. rewrite incr_keys. set_solver.
      * by apply Forall_cons.
Qed.

Lemma wf_update c ks : counter_wf c -> counter_wf (update c ks).
Proof.
  revert c. induction ks as [|k ks IH]; intros c Hc; simpl; [done|].
  apply IH. by apply wf_incr.
Qed.

Lemma get_update c ks q :
  NoDup ks ->
  get (update c ks) q = get c q + (if decide (q ∈ ks) then 1 else 0).
Proof.
  revert c. induction ks as [|k ks IH]; intros c Hnd.
  - unfold update. cbn [foldl].
    destruct (decide (q ∈ [])) as [?%elem_of_nil|]; [done | lia].
  - apply NoDup_cons in Hnd as [Hk Hnd]. unfold update in *. cbn [foldl].
    rewrite IH, get_incr by done.
    destruct (decide (k = q)) as [->|]; repeat destruct (decide _);
      set_solver by lia.
Qed.

(** In a well-formed counter the items are the keys with a positive
    count, each with that count. *)
Lemma elem_of_items c k n : counter_wf c -> (k, n) ∈ items c <-> get c k = n ∧ 0 < n.
Proof.
  unfold items. intros [Hnd Hpos]. induction c as [|[k' n'] c IH]; simpl.
  - split; [by intros ?%elem_of_nil | lia].
  - apply NoDup_cons in Hnd as [Hk' Hnd]. apply Forall_cons in Hpos as [? Hpos].
    simpl in *. rewrite elem_of_cons, (IH Hnd Hpos).
    destruct (decide (k' = k)) as [->|Hne].
    + split; [intros [?|[Hget ?]]; simplify_eq; [done|] | naive_solver].
      exfalso. apply Hk'. apply list_elem_of_fmap. exists (k, get c k).
      split; [done|]. by apply IH.
    + naive_solver.
Qed.

End CounterFacts.

(** ** Sorting by a key *)

Section SortedByKey.
Context {A : Type} (key : A -> nat).

Lemma sorted_by_key_perm l : sorted_by_key key l ≡ₚ l.
Proof. apply sorted_perm. Qed.

Lemma insert_sorted_by_key x l :
  StronglySorted (fun a b => key a <= key b) l ->
  StronglySorted (fun a b => key a <= key b)
                 (insert_sorted (fun a b => (key a <? key b)%nat) x l).
Proof.
  induction 1 as [|y l Hl IH Hy]; simpl.
  - repeat constructor.
  - destruct (Nat.ltb_spec (key y) (key x)) as [Hlt|Hge].
    + constructor; [done|]. rewrite insert_sorted_perm.
      constructor; [lia | done].
    + constructor; [by constructor|].
      constructor; [done|]. eapply Forall_impl; [done|]. simpl. lia.
Qed.

Lemma sorted_by_key_sorted l :
  StronglySorted (fun a b => key a <= key b) (sorted_by_key key l).
Proof.
  induction l as [|x l IH]; simpl; [constructor|].
  by apply insert_sorted_by_key.
Qed.

Lemma StronglySorted_last (l : list A) x :
  StronglySorted (fun a b => key a <= key b) l ->
  last l = Some x -> forall y, y ∈ l -> key y <= key x.
Proof.
  intros Hs (l' & ->)%last_Some y Hy.
  apply elem_of_app in Hy as [Hy | ->%list_elem_of_singleton]; [|done].
  apply (StronglySorted_app_1_elem_of (fun a b => key a <= key b) l' [x]);
    [done..|]. by apply list_elem_of_singleton.
Qed.

(** [sorted(l, key=key)[-1]] is an element of [l] whose key is greatest. *)
Lemma sorted_by_key_last l x :
  last (sorted_by_key key l) = Some x ->
  x ∈ l ∧ forall y, y ∈ l -> key y <= key x.
Proof.
  intros Hlast. split.
  - rewrite <- (sorted_by_key_perm l). by eapply last_Some_elem_of.
  - intros y Hy. eapply StronglySorted_last; [apply sorted_by_key_sorted|done|].
    by rewrite sorted_by_key_perm.
Qed.

Lemma sorted_by_key_last_None l :
  last (sorted_by_key key l) = None <-> l = [].
Proof.
  rewrite last_None. split; [|by intros ->].
  intros Hnil. apply Permutation_nil_r. by rewrite <- Hnil, sorted_by_key_perm.
Qed.
End SortedByKey.

(** ** The common-prefix finder: what it computes *)

Section FindCommonPrefix.
Import Counter CounterFacts.
Variable cwd : list string.


Lemma tally_cons c p paths :
  tally cwd c (p :: paths) = tally cwd (update c (lineage (absolute cwd p))) paths.
Proof. reflexivity. Qed.

Lemma tally_wf c paths : counter_wf c -> counter_wf (tally cwd c paths).
Proof.
  revert c. induction paths as [|p paths IH]; intros c Hc; [done|].
  rewrite tally_cons. by apply IH, wf_update.
Qed.

Lemma get_tally c paths q :
  get (tally cwd c paths) q =
  get c q + length (filter (fun p => is_ancestor q (absolute cwd p)) paths).
Proof.
  revert c. induction paths as [|p paths IH]; intros c; [simpl; lia|].
  rewrite tally_cons, IH, get_update by apply NoDup_lineage.
  rewrite filter_cons.
  destruct (decide (q ∈ lineage (absolute cwd p))) as [Hin|Hin];
    rewrite elem_of_lineage in Hin.
  - rewrite decide_True by done. simpl. lia.
  - rewrite decide_False by done. lia.
Qed.

Lemma length_filter_all {A} (P : A -> Prop) `{!forall x, Decision (P x)} l :
  length l <= length (filter P l) <-> Forall P l.
Proof.
  induction l as [|x l IH]; simpl.
  - split; [constructor | lia].
  - rewrite filter_cons, Forall_cons. pose proof (length_filter P l).
    destruct (decide (P x)); simpl; rewrite <- ?IH; intuition lia.
Qed.

(** The paths that [find_common_prefix] sorts are the common ancestors. *)
Lemma elem_of_candidates paths q :
  q ∈ (fun item : Path * nat => item.1)
        <$> filter (fun item : Path * nat => length paths <= item.2)
                   (items (tally cwd empty paths))
  <-> paths ≠ [] ∧ common cwd q paths.
Proof.
  rewrite list_elem_of_fmap. unfold common.
  rewrite <- length_filter_all. split.
  - intros ([q' n] & -> & [Hn Hin]%list_elem_of_filter). simpl in *.
    apply elem_of_items in Hin as [Hget Hpos]; [|apply tally_wf, wf_empty].
    rewrite get_tally in Hget. simpl in Hget. subst n.
    split; [|done]. intros ->. simpl in Hpos. lia.
  - intros [Hne Hlen].
    exists (q, get (tally cwd empty paths) q). split; [done|].
    rewrite list_elem_of_filter, elem_of_items by apply tally_wf, wf_empty.
    rewrite get_tally. simpl. destruct paths; [done|]. simpl in *. lia.
Qed.

(** A result of [find_common_prefix] is a common ancestor, and every
    common ancestor is an ancestor of it: it is the deepest one. *)
Lemma find_common_prefix_Some paths r :
  find_common_prefix cwd paths = Some r ->
  paths ≠ [] ∧ common cwd r paths ∧ forall c, common cwd c paths -> is_ancestor c r.
Proof.
  unfold find_common_prefix. intros [Hin Hmax]%sorted_by_key_last.
  apply elem_of_candidates in Hin as [Hne Hr].
  split; [done|]. split; [done|]. intros c Hc.
  assert (length (parts c) <= length (parts r)) as Hlen.
  { apply Hmax. by apply elem_of_candidates. }
  destruct paths as [|p paths]; [done|].
  apply Forall_cons in Hc as [Hc _]. apply Forall_cons in Hr as [Hr _].
  by eapply is_ancestor_chain.
Qed.

(** There is no result exactly when there is no path to start from or
    no common ancestor. *)
Lemma find_common_prefix_None paths :
  find_common_prefix cwd paths = None <->
  paths = [] ∨ forall c, ¬ common cwd c paths.
Proof.
  unfold find_common_prefix. rewrite sorted_by_key_last_None. split.
  - intros Hnil. destruct paths as [|p paths]; [by left|]. right.
    intros c Hc.
    assert (c ∈ @nil Path) as Hin; [|by apply elem_of_nil in Hin].
    rewrite <- Hnil. by apply elem_of_candidates.
  - intros Hno. destruct (_ <$> _) as [|q l] eqn:Heq; [done|]. exfalso.
    assert (q ∈ q :: l) as Hin by left. rewrite <- Heq in Hin.
    apply elem_of_candidates in Hin as [Hne Hq]. naive_solver.
Qed.

(** Paths with one root have that root as a common ancestor. *)
Lemma common_root p paths :
  Forall (fun q => root (absolute cwd q) = root (absolute cwd p)) paths ->
  common cwd (MkPath (root (absolute cwd p)) []) paths.
Proof.
  unfold common. intros H. eapply Forall_impl; [done|]. intros q Hq.
  split; [done | apply prefix_nil].
Qed.
End FindCommonPrefix.

(** ** Absolute paths *)

Lemma is_absolute_absolute cwd p : is_absolute (absolute cwd p) = true.
Proof.
  unfold absolute, is_absolute, joinpath.
  destruct p as [[] l]; reflexivity.
Qed.

Lemma absolute_idemp cwd p : absolute cwd (absolute cwd p) = absolute cwd p.
Proof.
  unfold absolute at 1. by rewrite is_absolute_absolute.
Qed.

Lemma absolute_of_absolute cwd p : is_absolute p = true -> absolute cwd p = p.
Proof. unfold absolute. by intros ->. Qed.

Lemma is_absolute_parent p : is_absolute (parent p) = is_absolute p.
Proof. reflexivity. Qed.

(** ** Claims about the common-prefix finder *)




(** C8: for the empty collection nothing is returned. *)
Theorem find_common_prefix_empty (cwd : list string) :
  find_common_prefix cwd [] = None.
Proof. reflexivity. Qed.

(** ** Claims about the relativizer *)

Section RelativeTo.
Variable w : world.
Variables source_path target_path : Path.

Let src := effective_source w source_path.
Let tgt := absolute (cwd w) target_path.

Lemma is_absolute_effective_source : is_absolute src = true.
Proof.
  unfold src, effective_source. cbn zeta.
  destruct (stat w _) as [|[]]; rewrite ?is_absolute_parent;
    apply is_absolute_absolute.
Qed.

(** What [relative_to] does, in one equation. *)
Lemma relative_to_unfold :
  relative_to source_path target_path w =
  match find_common_prefix (cwd w) [src; tgt] with
  | None => inl (ValueError "No common prefix")
  | Some common_prefix =>
      inr (of_names
             (replicate (length (segs src) - length (segs common_prefix)) ".."
              ++ drop (length (segs common_prefix)) (segs tgt)), w)
  end.
Proof.
  unfold relative_to, bind, getcwd, is_file. cbn beta iota zeta.
  fold tgt.
  replace (if match stat w (absolute (cwd w) source_path) with
              | inr (RegFile _) => true
              | _ => false
              end
           then parent (absolute (cwd w) source_path)
           else absolute (cwd w) source_path) with src.
  2:{ unfold src, effective_source. cbn zeta.
      by destruct (stat w _) as [|[]]. }
  destruct (find_common_prefix (cwd w) [src; tgt]) as [cp|] eqn:Hfind;
    [|done].
  apply find_common_prefix_Some in Hfind as (_ & Hcommon & _).
  unfold common in Hcommon.
  rewrite !Forall_cons, Forall_nil in Hcommon.
  destruct Hcommon as (Hsrc & Htgt & _).
  rewrite absolute_of_absolute in Hsrc by apply is_absolute_effective_source.
  unfold tgt in Htgt. rewrite absolute_idemp in Htgt. fold tgt in Htgt.
  unfold lift, path_relative_to, ret.
  destruct Hsrc as [Hsr Hsp], Htgt as [Htr Htp].
  rewrite !decide_True by (split; congruence).
  unfold joinpath, of_names, parts. simpl.
  by rewrite length_drop.
Qed.

Lemma find_common_prefix_pair_Some common_prefix :
  find_common_prefix (cwd w) [src; tgt] = Some common_prefix ->
  is_ancestor common_prefix src ∧ is_ancestor common_prefix tgt.
Proof.
  intros (_ & Hcommon & _)%find_common_prefix_Some.
  unfold common in Hcommon.
  rewrite !Forall_cons, Forall_nil in Hcommon.
  destruct Hcommon as (Hsrc & Htgt & _).
  rewrite absolute_of_absolute in Hsrc by apply is_absolute_effective_source.
  unfold tgt in Htgt. by rewrite absolute_idemp in Htgt.
Qed.
End RelativeTo.

Lemma find_common_prefix_same cwd p :
  find_common_prefix cwd [p; p] = Some (absolute cwd p).
Proof.
  destruct (find_common_prefix cwd [p; p]) as [r|] eqn:Hfind.
  - apply find_common_prefix_Some in Hfind as (_ & Hr & Hdeep). f_equal.
    apply is_ancestor_antisym.
    + by apply Forall_cons in Hr as [? _].
    + apply Hdeep. unfold common.
      rewrite !Forall_cons, Forall_nil. auto using is_ancestor_refl.
  - apply find_common_prefix_None in Hfind as [?|Hno]; [done|].
    exfalso. apply (Hno (absolute cwd p)). unfold common.
    rewrite !Forall_cons, Forall_nil. auto using is_ancestor_refl.
Qed.

(** C2: when the effective source directory and the target have the common
    prefix [common_prefix], the effective source is [common_prefix]
    followed by the segments [up], the target is [common_prefix] followed
    by the segments [down], and [relative_to] returns the relative path of
    one [".."] for every segment of [up] followed by [down].  Where
    [/a/b/c/file.txt] is a regular file, so that [/a/b/c] is the effective
    source, [relative_to('/a/b/c/file.txt', '/a/b/d/target.txt')] is
    [../d/target.txt]. *)
Theorem relative_to_steps (w : world) (source_path target_path : Path)
  (common_prefix : Path)
  (Hcommon : find_common_prefix (cwd w)
               [effective_source w source_path;
                absolute (cwd w) target_path] = Some common_prefix) :
  (exists up down,
      segs (effective_source w source_path) = segs common_prefix ++ up ∧
      segs (absolute (cwd w) target_path) = segs common_prefix ++ down ∧
      relative_to source_path target_path w
      = inr (of_names (replicate (length up) ".." ++ down), w)) ∧
  (forall w',
      is_file (of_string "/a/b/c/file.txt") w' = inr (true, w') ->
      exists result,
        relative_to (of_string "/a/b/c/file.txt")
                    (of_string "/a/b/d/target.txt") w' = inr (result, w') ∧
        str result = "../d/target.txt").
Proof.
  split.
  - rewrite relative_to_unfold, Hcommon.
    apply find_common_prefix_pair_Some in Hcommon
      as [[_ [up Hup]] [_ [down Hdown]]].
    exists up, down. split; [done|]. split; [done|].
    rewrite Hup, Hdown, length_app, drop_app_length.
    by replace (length (segs common_prefix) + length up
                - length (segs common_prefix)) with (length up) by lia.
  - intros w' Hfile. eexists. rewrite relative_to_unfold.
    assert (effective_source w' (of_string "/a/b/c/file.txt")
            = of_string "/a/b/c") as ->.
    { unfold effective_source, is_file in *. cbn zeta.
      rewrite absolute_of_absolute by done.
      destruct (stat w' _) as [|[]]; [done | reflexivity | done]. }
    split; reflexivity.
Qed.

Lemma relative_to_steps_witness :
  exists up down,
    relative_to (of_string "/a/b/c/file.txt") (of_string "/a/b/d/target.txt")
                scenario_world
    = inr (of_names (replicate (length up) ".." ++ down), scenario_world) ∧
    up = ["c"] ∧ down = ["d"; "target.txt"].
Proof.
  destruct (relative_to_steps scenario_world
              (of_string "/a/b/c/file.txt") (of_string "/a/b/d/target.txt")
              (of_string "/a/b")) as [(up & down & Hup & Hdown & Hrel) _].
  - vm_compute. reflexivity.
  - exists up, down. split; [done|].
    vm_compute in Hup, Hdown. split; congruence.
Defined.

(** Where [/a/b/c/file.txt] is not a regular file (it does not exist, say),
    the source itself is the effective source directory, one level
    deeper. *)
Lemma relative_to_scenario_not_a_file w :
  is_file (of_string "/a/b/c/file.txt") w = inr (false, w) ->
  exists result,
    relative_to (of_string "/a/b/c/file.txt")
                (of_string "/a/b/d/target.txt") w = inr (result, w) ∧
    str result = "../../d/target.txt".
Proof.
  intros Hfile. eexists. rewrite relative_to_unfold.
  assert (effective_source w (of_string "/a/b/c/file.txt")
          = of_string "/a/b/c/file.txt") as ->.
  { unfold effective_source, is_file in *. cbn zeta.
    rewrite absolute_of_absolute by done.
    destruct (stat w _) as [|[]]; [reflexivity | done | reflexivity]. }
  split; reflexivity.
Qed.

(** C7: [relative_to] raises [ValueError('No common prefix')] exactly when
    [find_common_prefix] has no result for the effective source directory
    and the target; it raises nothing else, and when there is a result it
    returns a relative path. *)
Theorem relative_to_no_common_prefix (w : world)
  (source_path target_path : Path) :
  (relative_to source_path target_path w
   = inl (ValueError "No common prefix")
   <-> find_common_prefix (cwd w)
         [effective_source w source_path; absolute (cwd w) target_path]
       = None) ∧
  (forall e, relative_to source_path target_path w = inl e ->
             e = ValueError "No common prefix") ∧
  (find_common_prefix (cwd w)
     [effective_source w source_path; absolute (cwd w) target_path] ≠ None ->
   exists result,
     relative_to source_path target_path w = inr (result, w) ∧
     is_absolute result = false).
Proof.
  rewrite relative_to_unfold.
  destruct (find_common_prefix _ _) as [common_prefix|].
  - split; [split; discriminate|]. split; [discriminate|].
    intros _. eexists. split; reflexivity.
  - split; [done|]. split; [congruence | done].
Qed.

(** The error of C7 does occur: [//a] and [/b] have different roots. *)
Lemma relative_to_mixed_roots :
  relative_to (of_string "//a") (of_string "/b") scenario_world
  = inl (ValueError "No common prefix").
Proof. reflexivity. Qed.

(** C10: when the effective source directory is the target (made
    absolute), [relative_to] returns the path without segments, which
    prints as ["."]. *)
Theorem relative_to_same (w : world) (source_path target_path : Path)
  (Hsame : effective_source w source_path = absolute (cwd w) target_path) :
  relative_to source_path target_path w = inr (of_names [], w) ∧
  str (of_names []) = ".".
Proof.
  split; [|reflexivity].
  rewrite relative_to_unfold, Hsame, find_common_prefix_same, absolute_idemp.
  by rewrite Nat.sub_diag, drop_all.
Qed.

Lemma relative_to_same_witness :
  relative_to (of_string "/a/b/c/file.txt") (of_string "/a/b/c")
              scenario_world
  = inr (of_names [], scenario_world).
Proof.
  apply (relative_to_same scenario_world). reflexivity.
Defined.

(** ** Round trip *)

Lemma normpath_step_proper r new_comps comp :
  proper comp -> normpath_step r new_comps comp = new_comps ++ [comp].
Proof.
  intros (? & ? & ?). unfold normpath_step.
  rewrite decide_False by tauto. by rewrite decide_True by tauto.
Qed.

Lemma normpath_step_up r new_comps comp :
  proper comp ->
  normpath_step r (new_comps ++ [comp]) ".." = new_comps.
Proof.
  intros (? & ? & ?). unfold normpath_step.
  rewrite decide_False by (intros [|]; discriminate).
  rewrite decide_False.
  - apply removelast_last.
  - rewrite last_snoc. intros [?|[[_ ?%app_eq_nil]|?]]; naive_solver.
Qed.

Lemma normpath_proper r new_comps l :
  Forall proper l ->
  foldl (normpath_step r) new_comps l = new_comps ++ l.
Proof.
  intros Hl. revert new_comps.
  induction Hl as [|comp l Hcomp _ IH]; intros new_comps; simpl.
  - by rewrite app_nil_r.
  - by rewrite normpath_step_proper, IH, <- app_assoc.
Qed.

(** Going down through proper segments and as many times up again leads
    back to where one was. *)
Lemma normpath_down_up r new_comps l :
  Forall proper l ->
  foldl (normpath_step r) new_comps (l ++ replicate (length l) "..")
  = new_comps.
Proof.
  induction l as [|comp l IH] using rev_ind; intros Hl; [reflexivity|].
  apply Forall_app in Hl as [Hl Hcomp]. rewrite Forall_singleton in Hcomp.
  specialize (IH Hl).
  rewrite foldl_app, (normpath_proper _ _ l) in IH by done.
  rewrite length_app, Nat.add_comm, <- app_assoc. simpl.
  rewrite foldl_app, (normpath_proper _ _ l) by done. simpl.
  rewrite (normpath_step_proper _ _ comp) by done.
  by rewrite normpath_step_up.
Qed.

(** C3, as the specification states it, fails when the source has a
    [".."] segment below the common prefix: [relative_to] counts that
    segment as one more level to climb.  In [dotdot_world] the source
    [/a/x/../f.txt] is a regular file and the target is [/a/b]; the result
    is [../../b], and joined onto the parent [/a/x/..] of the source it
    normalizes to [/b], not to [/a/b]. *)
Lemma relative_to_round_trip_dotdot :
  is_file (of_string "/a/x/../f.txt") dotdot_world
  = inr (true, dotdot_world) ∧
  find_common_prefix (cwd dotdot_world)
    [parent (of_string "/a/x/../f.txt"); of_string "/a/b"]
  = Some (of_string "/a") ∧
  relative_to (of_string "/a/x/../f.txt") (of_string "/a/b") dotdot_world
  = inr (of_string "../../b", dotdot_world) ∧
  normpath (joinpath (parent (of_string "/a/x/../f.txt"))
                     (of_string "../../b"))
  = of_string "/b" ∧
  normpath (of_string "/a/b") = of_string "/a/b" ∧
  of_string "/b" ≠ of_string "/a/b".
Proof. repeat split; first [reflexivity | discriminate]. Qed.

(** C3 (amended): for a source [A] that is a regular file and a target
    [B] with a common prefix, such that the segments of the parent
    directory of [A] below the common prefix are proper names (no [".."]
    among them), joining the result of [relative_to(A, B)] onto the parent
    directory of [A] and normalizing gives the same location as [B]
    normalized. *)
Theorem relative_to_round_trip (w : world) (A B common_prefix : Path)
  (Hfile : is_file (absolute (cwd w) A) w = inr (true, w))
  (Hcommon : find_common_prefix (cwd w)
               [parent (absolute (cwd w) A); absolute (cwd w) B]
             = Some common_prefix)
  (Hproper : Forall proper
               (drop (length (segs common_prefix))
                     (segs (parent (absolute (cwd w) A))))) :
  exists result,
    relative_to A B w = inr (result, w) ∧
    normpath (joinpath (parent (absolute (cwd w) A)) result)
    = normpath (absolute (cwd w) B).
Proof.
  assert (effective_source w A = parent (absolute (cwd w) A)) as Hsrc.
  { unfold effective_source, is_file in *. cbn zeta.
    destruct (stat w _) as [|[]]; [done | reflexivity | done]. }
  eexists. rewrite relative_to_unfold, Hsrc, Hcommon. split; [done|].
  rewrite <- Hsrc in Hcommon.
  apply find_common_prefix_pair_Some in Hcommon
    as [[Hr1 [up Hup]] [Hr2 [down Hdown]]].
  rewrite Hsrc in Hr1, Hup. clear Hsrc.
  rewrite Hup, drop_app_length in Hproper.
  unfold normpath, joinpath, of_names. simpl in *.
  rewrite Hup, Hdown, length_app, drop_app_length.
  replace (length (segs common_prefix) + length up
           - length (segs common_prefix)) with (length up) by lia.
  rewrite <- Hr1, Hr2, <- !app_assoc, !foldl_app. f_equal. f_equal.
  rewrite <- foldl_app. by apply normpath_down_up.
Qed.

Lemma relative_to_round_trip_witness :
  exists result,
    relative_to (of_string "/a/b/c/file.txt") (of_string "/a/b/d/target.txt")
                scenario_world = inr (result, scenario_world) ∧
    normpath (joinpath (of_string "/a/b/c") result)
    = of_string "/a/b/d/target.txt".
Proof.
  apply (relative_to_round_trip scenario_world
           (of_string "/a/b/c/file.txt") (of_string "/a/b/d/target.txt")
           (of_string "/a/b")).
  - reflexivity.
  - reflexivity.
  - vm_compute. repeat constructor; discriminate.
Defined.

(** ** Claims about the walker *)

Lemma walk_each_flat_map top_down root_path entries ds H :
  walk_unfold_clause_1_each top_down root_path entries ds H
  = flat_map (fun d => walk top_down d.1 d.2) ds.
Proof.
  induction ds as [|[directory_path es] ds IH].
  - by rewrite walk_clause_1_each_equation_1.
  - rewrite walk_clause_1_each_equation_2, IH. reflexivity.
Qed.

(** The body of [walk], with its loop as a [flat_map]. *)
Lemma walk_body top_down root_path entries :
  walk top_down root_path entries =
  (if top_down then [triple_of root_path entries] else []) ++
  flat_map (fun d => walk top_down d.1 d.2)
           (directories (listing root_path entries)) ++
  (if negb top_down then [triple_of root_path entries] else []).
Proof.
  rewrite walk_equation_1. cbn zeta. by rewrite walk_each_flat_map.
Qed.

Lemma elem_of_directories root_path entries n es :
  (n, Dir es) ∈ entries ->
  (joinpath root_path (of_names [n]), es)
    ∈ directories (listing root_path entries).
Proof.
  intros Hin. unfold directories. apply list_elem_of_omap.
  exists (joinpath root_path (of_names [n]), Dir es). split; [|done].
  unfold listing. rewrite sorted_perm. unfold iterdir.
  apply list_elem_of_fmap. by exists (n, Dir es).
Qed.

(** The walk of a subdirectory is a block of the walk of its parent. *)
Lemma walk_child_block top_down root_path entries n es :
  (n, Dir es) ∈ entries ->
  exists before after,
    flat_map (fun d => walk top_down d.1 d.2)
             (directories (listing root_path entries))
    = before ++ walk top_down (joinpath root_path (of_names [n])) es
      ++ after.
Proof.
  intros Hin%(elem_of_directories root_path).
  apply list_elem_of_split in Hin as (l1 & l2 & ->).
  rewrite flat_map_app. simpl. eauto.
Qed.

(** The triple of a directory is in its own walk. *)
Lemma walk_own_triple top_down root_path entries :
  triple_of root_path entries ∈ walk top_down root_path entries.
Proof.
  rewrite walk_body. destruct top_down; simpl; [left|].
  rewrite elem_of_app. right. left.
Qed.

(** The triple of every descendant is in the loop of the walk. *)
Lemma walk_inside_loop top_down root_path entries q es :
  inside root_path entries q es ->
  triple_of q es
    ∈ flat_map (fun d => walk top_down d.1 d.2)
               (directories (listing root_path entries)).
Proof.
  induction 1 as [p es n es' Hin | p es n es' q es'' Hin _ IH].
  - destruct (walk_child_block top_down p es n es' Hin)
      as (before & after & ->).
    rewrite !elem_of_app. right. left. apply walk_own_triple.
  - destruct (walk_child_block top_down p es n es' Hin)
      as (before & after & ->).
    rewrite !elem_of_app. right. left.
    rewrite walk_body, !elem_of_app. right. by left.
Qed.

(** The walk of a descendant is a block of the walk. *)
Lemma walk_inside_block top_down root_path entries q es :
  inside root_path entries q es ->
  exists before after,
    walk top_down root_path entries
    = before ++ walk top_down q es ++ after.
Proof.
  induction 1 as [p es n es' Hin | p es n es' q es'' Hin _ IH].
  - destruct (walk_child_block top_down p es n es' Hin)
      as (before & after & Heq).
    rewrite walk_body, Heq.
    exists ((if top_down then [triple_of p es] else []) ++ before),
           (after ++ (if negb top_down then [triple_of p es] else [])).
    rewrite <- !app_assoc. reflexivity.
  - destruct (walk_child_block top_down p es n es' Hin)
      as (before & after & Heq).
    destruct IH as (before' & after' & IH).
    rewrite walk_body, Heq, IH.
    exists ((if top_down then [triple_of p es] else []) ++ before ++ before'),
           (after' ++ after
            ++ (if negb top_down then [triple_of p es] else [])).
    rewrite <- !app_assoc. reflexivity.
Qed.

(** C6: in the walk of a finite directory tree from [root_path], for a
    directory [d] of the tree (the root directory or a descendant of it)
    and a descendant [e] of [d]: with [top_down=True] the triple of [d]
    is produced before the triple of [e], with [top_down=False] after
    it. *)
Theorem walk_order (root_path : Path) (entries : list (string * tree))
  (d : Path) (d_entries : list (string * tree))
  (e : Path) (e_entries : list (string * tree))
  (Hd : (d = root_path ∧ d_entries = entries)
        ∨ inside root_path entries d d_entries)
  (He : inside d d_entries e e_entries) :
  (exists l1 l2 l3,
      walk true root_path entries
      = l1 ++ [triple_of d d_entries] ++ l2
        ++ [triple_of e e_entries] ++ l3) ∧
  (exists l1 l2 l3,
      walk false root_path entries
      = l1 ++ [triple_of e e_entries] ++ l2
        ++ [triple_of d d_entries] ++ l3).
Proof.
  assert (Hblock : forall top_down, exists before after,
             walk top_down root_path entries
             = before ++ walk top_down d d_entries ++ after).
  { intros top_down. destruct Hd as [[-> ->]|Hd].
    - exists [], []. by rewrite app_nil_r.
    - by apply walk_inside_block. }
  split.
  - destruct (Hblock true) as (before & after & ->).
    pose proof (walk_inside_loop true _ _ _ _ He) as Hin.
    apply list_elem_of_split in Hin as (l2 & l3 & Hloop).
    rewrite (walk_body true d), Hloop. simpl.
    exists before, l2, (l3 ++ after).
    by rewrite app_nil_r, <- !app_assoc.
  - destruct (Hblock false) as (before & after & ->).
    pose proof (walk_inside_loop false _ _ _ _ He) as Hin.
    apply list_elem_of_split in Hin as (l1 & l2 & Hloop).
    rewrite (walk_body false d), Hloop. simpl.
    exists (before ++ l1), l2, after.
    by rewrite <- !app_assoc.
Qed.

Lemma walk_order_witness :
  exists l1 l2 l3,
    walk true (of_string "/r") sample_entries
    = l1 ++ [triple_of (of_string "/r/b") [("z", File); ("y", Dir [])]]
      ++ l2 ++ [triple_of (of_string "/r/b/y") []] ++ l3.
Proof.
  apply (walk_order (of_string "/r") sample_entries
           (of_string "/r/b") [("z", File); ("y", Dir [])]
           (of_string "/r/b/y") []).
  - right.
    exact (inside_child (of_string "/r") sample_entries "b"
             [("z", File); ("y", Dir [])] (list_elem_of_here _ _)).
  - exact (inside_child (of_string "/r/b") [("z", File); ("y", Dir [])] "y"
             [] (list_elem_of_further _ _ _ (list_elem_of_here _ _))).
Defined.

(** ** Path resolution *)

Lemma app_cons_snoc {A} (dir : list A) n l :
  dir ++ n :: l = (dir ++ [n]) ++ l.
Proof. by rewrite <- app_assoc. Qed.


Lemma locate_start_dir w p :
  locate w p = resolve (files w) (start_dir w (root p)) (segs p).
Proof. unfold locate, is_absolute, start_dir. by destruct (root p). Qed.

Lemma resolve_app fs dir l1 l2 :
  resolve fs dir (l1 ++ l2) =
  match resolve fs dir l1 with
  | inl e => inl e
  | inr d => resolve fs d l2
  end.
Proof.
  revert dir. induction l1 as [|n l1 IH]; intros dir; simpl; [done|].
  destruct (fs !! dir) as [[]|]; [done| |done]. apply IH.
Qed.

Lemma resolve_proper_cons fs dir n rest :
  proper n ->
  resolve fs dir (n :: rest) =
  match fs !! dir with
  | Some Directory => resolve fs (dir ++ [n]) rest
  | Some (RegFile _) => inl ENOTDIR
  | None => inl ENOENT
  end.
Proof.
  intros (? & ? & ?). simpl.
  by rewrite !decide_False by tauto.
Qed.


(** Along proper names the resolution walks down the directories. *)
Lemma resolve_proper_inr fs dir names d :
  Forall proper names ->
  resolve fs dir names = inr d ->
  d = dir ++ names ∧
  forall l, l `prefix_of` names -> l ≠ names ->
            fs !! (dir ++ l) = Some Directory.
Proof.
  intros Hnames. revert dir.
  induction Hnames as [|n rest Hn _ IH]; intros dir.
  - simpl. intros [= <-]. split; [by rewrite app_nil_r|].
    by intros l ->%prefix_nil_inv.
  - rewrite resolve_proper_cons by done.
    destruct (fs !! dir) as [[]|] eqn:Hdir; [done| |done].
    intros [-> Hchain]%IH. split; [by rewrite <- app_assoc|].
    intros [|n' l] Hpre Hne.
    + by rewrite app_nil_r.
    + pose proof (prefix_cons_inv_1 _ _ _ _ Hpre) as ->.
      apply prefix_cons_inv_2 in Hpre.
      rewrite app_cons_snoc. apply Hchain; [done | congruence].
Qed.

Lemma resolve_proper_chain fs dir names :
  Forall proper names ->
  (forall l, l `prefix_of` names -> l ≠ names ->
             fs !! (dir ++ l) = Some Directory) ->
  resolve fs dir names = inr (dir ++ names).
Proof.
  intros Hnames. revert dir.
  induction Hnames as [|n rest Hn _ IH]; intros dir Hchain.
  - simpl. by rewrite app_nil_r.
  - rewrite resolve_proper_cons by done.
    rewrite <- (app_nil_r dir) at 1.
    rewrite Hchain by (done || apply prefix_nil).
    rewrite IH; [by rewrite <- app_assoc|].
    intros l Hpre Hne. rewrite <- app_assoc. apply Hchain.
    + by apply prefix_cons.
    + simpl. congruence.
Qed.


(** ** Stores in the shape of a tree *)




(** ** Making directories *)






(** ** [mkdir] with parents *)

Lemma bind_inr {A B} (m : io A) (k : A -> io B) w x w' :
  m w = inr (x, w') -> bind m k w = k x w'.
Proof. unfold bind. by intros ->. Qed.

Lemma bind_inl {A B} (m : io A) (k : A -> io B) w e :
  m w = inl e -> bind m k w = inl e.
Proof. unfold bind. by intros ->. Qed.

Lemma world_eta w : World (cwd w) (files w) (stdout w) (written w) = w.
Proof. by destruct w. Qed.

Section OsMkdir.
Variable w : world.
Variable r : Root.

Let fs := files w.





End OsMkdir.


(** ** Claims about write-if-changed *)

Lemma elem_of_parents q p :
  q ∈ parents p <-> is_ancestor q p ∧ segs q ≠ segs p.
Proof.
  unfold parents. rewrite list_elem_of_fmap. split.
  - intros (k & -> & Hk). rewrite list_elem_of_In, <- in_rev, in_seq in Hk.
    split; [split; [done | apply prefix_take]|]. simpl.
    intros Heq%(f_equal length). rewrite length_take in Heq. lia.
  - intros [[Hr [rest Hp]] Hne]. exists (length (segs q)). split.
    + destruct q as [r' l']. simpl in *. subst r'. f_equal.
      by rewrite Hp, take_app_length.
    + rewrite list_elem_of_In, <- in_rev, in_seq.
      rewrite Hp, length_app. destruct rest; [|simpl; lia].
      by rewrite app_nil_r in Hp.
Qed.



Section WriteNew.
Variable w : world.
Variable r : Root.
Variables (l : list string) (x : string).
Variables (contents : string) (verbose : bool).

Let path := MkPath r (l ++ [x]).
Let key := start_dir w r ++ l ++ [x].

Hypothesis Hwf : world_wf w.
Hypothesis Hproper : Forall proper (l ++ [x]).
Hypothesis Hnew : exists_ path w = inr (false, w).
Hypothesis Hfree : forall q, q ∈ parents path -> is_file q w = inr (false, w).












End WriteNew.


(** Nor does it hold across a [".."] segment after a missing directory:
    [mkdir] makes [/a/x], finds that [/a/x/..] exists, and raises
    [FileExistsError]. *)
Lemma write_blocked_by_dotdot :
  exists_ (of_string "/a/x/../f.txt") bare_world = inr (false, bare_world) ∧
  write "X" (of_string "/a/x/../f.txt") false bare_world
  = inl (OSError EEXIST).
Proof. split; reflexivity. Qed.



(** The branch of [write] for a destination that holds the contents: the
    text read equals [contents], nothing is written, [False] comes back. *)
Lemma write_preserved contents path verbose w data :
  stat w path = inr (RegFile data) ->
  universal_newlines data = contents ->
  write contents path verbose w
  = inr (PyBool false,
         World (cwd w) (files w)
               (stdout w
                ++ (if verbose
                    then [("preserved: " ++ str path)%string]
                    else []))
               (written w)).
Proof.
  intros Hstat Hsame.
  assert (exists_ path w = inr (true, w)) as Hexists.
  { unfold exists_. by rewrite Hstat. }
  assert (open_read path w = inr (universal_newlines data, w)) as Hread.
  { unfold open_read. by rewrite Hstat. }
  unfold write. rewrite (bind_inr _ _ _ _ _ Hexists). cbn beta iota.
  rewrite (bind_inr _ _ _ _ _ Hread). cbn beta.
  rewrite decide_True by done.
  destruct verbose; unfold when, bind, print, ret; simpl; [done|].
  by rewrite app_nil_r, world_eta.
Qed.

(** C4: the branch for a destination that does not exist has no [return]:
    [write("X", "/new/deep/path/f.txt")] writes the file and hands back
    [None], which is as falsy as the [False] of the "preserved" branch
    that the next call takes. *)
Theorem write_new_returns_None :
  write "X" (of_string "/new/deep/path/f.txt") false bare_world
  = inr (PyNone, scenario_written) ∧
  written scenario_written = [(["new"; "deep"; "path"; "f.txt"], "X")] ∧
  truthy PyNone = false ∧
  write "X" (of_string "/new/deep/path/f.txt") false scenario_written
  = inr (PyBool false, scenario_written) ∧
  truthy (PyBool false) = false.
Proof. repeat split; vm_compute; reflexivity. Qed.

(** C5: text that holds a carriage return is read back with a line feed
    in its place, so it never compares equal: the second of two calls
    with the same contents writes the file again and hands back [True]. *)
Theorem write_twice_carriage_return :
  write text_with_cr (of_string "f.txt") false home_world
  = inr (PyNone, cr_written) ∧
  stat cr_written (of_string "f.txt") = inr (RegFile text_with_cr) ∧
  written cr_written = [(["home"; "f.txt"], text_with_cr)] ∧
  write text_with_cr (of_string "f.txt") false cr_written
  = inr (PyBool true,
         World (cwd cr_written) (files cr_written) (stdout cr_written)
               (written cr_written ++ [(["home"; "f.txt"], text_with_cr)])).
Proof. repeat split; vm_compute; reflexivity. Qed.

(** * Further properties *)

(** ** The common-prefix finder *)

(** The result is the one path that is a common ancestor and below every
    other common ancestor. *)
Lemma find_common_prefix_iff cwd paths r :
  find_common_prefix cwd paths = Some r <->
  paths ≠ [] ∧ common cwd r paths ∧
  forall c, common cwd c paths -> is_ancestor c r.
Proof.
  split; [apply find_common_prefix_Some|].
  intros (Hne & Hr & Hdeep).
  destruct (find_common_prefix cwd paths) as [r'|] eqn:Hfind.
  - apply find_common_prefix_Some in Hfind as (_ & Hr' & Hdeep').
    f_equal. apply is_ancestor_antisym; auto.
  - apply find_common_prefix_None in Hfind as [?|Hno]; [done|].
    by destruct (Hno r).
Qed.

(** Two collections with the same common ancestors have the same common
    prefix. *)
Lemma find_common_prefix_ext cwd cwd' paths paths' :
  (paths = [] <-> paths' = []) ->
  (forall c, common cwd c paths <-> common cwd' c paths') ->
  find_common_prefix cwd paths = find_common_prefix cwd' paths'.
Proof.
  intros Hnil Hcommon.
  destruct (find_common_prefix cwd paths) as [r|] eqn:Hfind; symmetry.
  - apply find_common_prefix_iff in Hfind as (Hne & Hr & Hdeep).
    apply find_common_prefix_iff. split; [tauto|]. split; [by apply Hcommon|].
    intros c Hc. by apply Hdeep, Hcommon.
  - apply find_common_prefix_None in Hfind as [Hempty|Hno].
    + apply find_common_prefix_None. left. tauto.
    + apply find_common_prefix_None. right. intros c Hc.
      by apply (Hno c), Hcommon.
Qed.

(** X1: for a non-empty collection, [find_common_prefix] has no result
    exactly when two of the paths, made absolute, have different roots. *)
Theorem find_common_prefix_None_roots (cwd : list string)
  (paths : list Path) :
  find_common_prefix cwd paths = None <->
  paths = [] ∨
  exists p q, p ∈ paths ∧ q ∈ paths ∧
              root (absolute cwd p) ≠ root (absolute cwd q).
Proof.
  rewrite find_common_prefix_None. split.
  - intros [?|Hno]; [by left|]. destruct paths as [|p paths]; [by left|].
    right.
    destruct (decide (Forall (fun q => root (absolute cwd q)
                                       = root (absolute cwd p)) (p :: paths)))
      as [Hall|Hex].
    + by destruct (Hno _ (common_root cwd p (p :: paths) Hall)).
    + apply not_Forall_Exists in Hex; [|apply _].
      apply Exists_exists in Hex as (q & Hq & Hne).
      exists q, p. split; [done|]. split; [left | done].
  - intros [?|(p & q & Hp & Hq & Hne)]; [by left|]. right.
    intros c Hc. unfold common in Hc. rewrite Forall_forall in Hc.
    destruct (Hc p Hp) as [Hrp _], (Hc q Hq) as [Hrq _]. congruence.
Qed.

(** X2: the result depends on the set of the given paths only, not on
    their order or on repetitions. *)
Theorem find_common_prefix_same_elements (cwd : list string)
  (paths paths' : list Path)
  (Hsame : forall p, p ∈ paths <-> p ∈ paths') :
  find_common_prefix cwd paths = find_common_prefix cwd paths'.
Proof.
  apply find_common_prefix_ext.
  - split; intros ->.
    + destruct paths' as [|p ?]; [done|].
      pose proof (proj2 (Hsame p) (list_elem_of_here _ _)) as Hin.
      by apply elem_of_nil in Hin.
    + destruct paths as [|p ?]; [done|].
      pose proof (proj1 (Hsame p) (list_elem_of_here _ _)) as Hin.
      by apply elem_of_nil in Hin.
  - intros c. unfold common. rewrite !Forall_forall. naive_solver.
Qed.

Lemma find_common_prefix_same_elements_witness :
  find_common_prefix ["home"] [of_string "/a/b/c"; of_string "/a/d"]
  = find_common_prefix ["home"]
      [of_string "/a/d"; of_string "/a/b/c"; of_string "/a/d"].
Proof.
  apply find_common_prefix_same_elements.
  intros p. rewrite !elem_of_cons, !elem_of_nil. tauto.
Defined.

(** X3: for absolute paths the result does not depend on the working
    directory. *)
Theorem find_common_prefix_absolute_inputs (cwd cwd' : list string)
  (paths : list Path)
  (Habs : Forall (fun p => is_absolute p = true) paths) :
  find_common_prefix cwd paths = find_common_prefix cwd' paths.
Proof.
  apply find_common_prefix_ext; [done|].
  intros c. unfold common. rewrite !Forall_forall.
  rewrite Forall_forall in Habs.
  split; intros Hc p Hp; specialize (Hc p Hp);
    by rewrite absolute_of_absolute in Hc |- * by auto.
Qed.

Lemma find_common_prefix_absolute_inputs_witness :
  find_common_prefix ["home"] [of_string "/a/b/c"; of_string "/a/d"]
  = find_common_prefix ["tmp"; "x"] [of_string "/a/b/c"; of_string "/a/d"].
Proof.
  apply find_common_prefix_absolute_inputs. by repeat constructor.
Defined.

(** X4: a result is an absolute path. *)
Theorem find_common_prefix_is_absolute (cwd : list string)
  (paths : list Path) (r : Path)
  (Hfind : find_common_prefix cwd paths = Some r) :
  is_absolute r = true.
Proof.
  apply find_common_prefix_Some in Hfind as (Hne & Hr & _).
  destruct paths as [|p paths]; [done|].
  apply Forall_cons in Hr as [[Hroot _] _].
  pose proof (is_absolute_absolute cwd p) as Habs.
  unfold is_absolute in *. by rewrite Hroot.
Qed.

Lemma find_common_prefix_is_absolute_witness :
  is_absolute (of_string "/home") = true.
Proof.
  apply (find_common_prefix_is_absolute ["home"; "u"]
           [of_string "../x"; of_string "/home/v"]).
  vm_compute. reflexivity.
Defined.

(** X5: more paths give a common prefix that is no deeper: the prefix of
    a larger collection is an ancestor of the prefix of a smaller one. *)
Theorem find_common_prefix_more_paths (cwd : list string)
  (paths paths' : list Path) (r r' : Path)
  (Hsub : forall p, p ∈ paths -> p ∈ paths')
  (Hfind : find_common_prefix cwd paths = Some r)
  (Hfind' : find_common_prefix cwd paths' = Some r') :
  is_ancestor r' r.
Proof.
  apply find_common_prefix_Some in Hfind as (_ & _ & Hdeep).
  apply find_common_prefix_Some in Hfind' as (_ & Hr' & _).
  apply Hdeep. unfold common in *. rewrite Forall_forall in Hr' |- *. auto.
Qed.

Lemma find_common_prefix_more_paths_witness :
  is_ancestor (of_string "/a") (of_string "/a/b").
Proof.
  apply (find_common_prefix_more_paths []
           [of_string "/a/b/c"; of_string "/a/b/d"]
           [of_string "/a/b/c"; of_string "/a/b/d"; of_string "/a/e"]).
  - intros p. rewrite !elem_of_cons. tauto.
  - vm_compute. reflexivity.
  - vm_compute. reflexivity.
Defined.

(** X6: the common prefix of a path and one of its ancestors is the
    ancestor. *)
Theorem find_common_prefix_with_ancestor (cwd : list string) (p q : Path)
  (Hanc : is_ancestor (absolute cwd q) (absolute cwd p)) :
  find_common_prefix cwd [p; q] = Some (absolute cwd q).
Proof.
  apply find_common_prefix_iff. split; [done|]. unfold common. split.
  - rewrite !Forall_cons, Forall_nil. auto using is_ancestor_refl.
  - intros c. rewrite !Forall_cons. tauto.
Qed.

Lemma find_common_prefix_with_ancestor_witness :
  find_common_prefix ["home"] [of_string "/a/b/c"; of_string "/a"]
  = Some (of_string "/a").
Proof.
  apply (find_common_prefix_with_ancestor ["home"]
           (of_string "/a/b/c") (of_string "/a")).
  split; [reflexivity|]. by exists ["b"; "c"].
Defined.

(** ** The relativizer *)

Lemma find_common_prefix_absolute_ancestor cwd a b :
  is_absolute a = true -> is_absolute b = true -> is_ancestor a b ->
  find_common_prefix cwd [a; b] = Some a ∧
  find_common_prefix cwd [b; a] = Some a.
Proof.
  intros Ha Hb Hanc.
  split; apply find_common_prefix_iff; (split; [done|]); unfold common;
    (split; [|intros c]); rewrite !Forall_cons, ?Forall_nil;
    rewrite !absolute_of_absolute by done;
    auto using is_ancestor_refl; tauto.
Qed.

(** X7: when the target lies in the effective source directory or below
    it, the result is the target's segments below that directory, with no
    [".."] step. *)
Theorem relative_to_below (w : world) (source_path target_path : Path)
  (Hbelow : is_ancestor (effective_source w source_path)
                        (absolute (cwd w) target_path)) :
  relative_to source_path target_path w
  = inr (of_names (drop (length (segs (effective_source w source_path)))
                        (segs (absolute (cwd w) target_path))), w).
Proof.
  rewrite relative_to_unfold.
  destruct (find_common_prefix_absolute_ancestor (cwd w) _ _
              (is_absolute_effective_source w source_path)
              (is_absolute_absolute (cwd w) target_path) Hbelow) as [-> _].
  by rewrite Nat.sub_diag.
Qed.

Lemma relative_to_below_witness :
  relative_to (of_string "/a/b/c/file.txt") (of_string "/a/b/c/d/e")
              scenario_world
  = inr (of_string "d/e", scenario_world).
Proof.
  apply (relative_to_below scenario_world (of_string "/a/b/c/file.txt")
           (of_string "/a/b/c/d/e")).
  split; [reflexivity|]. by exists ["d"; "e"].
Defined.

(** X8: when the target is the effective source directory or an ancestor
    of it, the result consists of [".."] steps only, one for every segment
    of the source below the target. *)
Theorem relative_to_above (w : world) (source_path target_path : Path)
  (Habove : is_ancestor (absolute (cwd w) target_path)
                        (effective_source w source_path)) :
  relative_to source_path target_path w
  = inr (of_names
           (replicate (length (segs (effective_source w source_path))
                       - length (segs (absolute (cwd w) target_path)))
                      ".."), w).
Proof.
  rewrite relative_to_unfold.
  destruct (find_common_prefix_absolute_ancestor (cwd w) _ _
              (is_absolute_absolute (cwd w) target_path)
              (is_absolute_effective_source w source_path) Habove)
    as [_ ->].
  by rewrite drop_all, app_nil_r.
Qed.

Lemma relative_to_above_witness :
  relative_to (of_string "/a/b/c/file.txt") (of_string "/a")
              scenario_world
  = inr (of_string "../..", scenario_world).
Proof.
  apply (relative_to_above scenario_world (of_string "/a/b/c/file.txt")
           (of_string "/a")).
  split; [reflexivity|]. by exists ["b"; "c"].
Defined.

(** The lexical parent of a path that leads somewhere is a directory. *)
Lemma stat_parent w p n :
  world_wf w -> stat w p = inr n -> segs p ≠ [] ∨ n ≠ Directory ->
  stat w (parent p) = inr Directory.
Proof.
  intros (Hroot & Hcwd & _) Hstat Hne. destruct p as [r l].
  unfold stat in *. rewrite locate_start_dir in *. simpl in *.
  destruct l as [|x l _] using rev_ind.
  - simpl in *. destruct Hne as [?|Hne]; [done|].
    destruct r; simpl in *; rewrite ?Hroot, ?Hcwd in Hstat; congruence.
  - rewrite removelast_last. rewrite resolve_app in Hstat.
    destruct (resolve (files w) (start_dir w r) l) as [e|d]; [done|].
    simpl in Hstat. by destruct (files w !! d) as [[]|].
Qed.

(** X9: a source that is a regular file gives what its parent directory
    gives as a source. *)
Theorem relative_to_file_source (w : world) (source_path target_path : Path)
  (Hwf : world_wf w)
  (Hfile : is_file (absolute (cwd w) source_path) w = inr (true, w)) :
  relative_to source_path target_path w
  = relative_to (parent (absolute (cwd w) source_path)) target_path w.
Proof.
  rewrite !relative_to_unfold.
  assert (exists data, stat w (absolute (cwd w) source_path)
                       = inr (RegFile data)) as [data Hstat].
  { unfold is_file in Hfile.
    destruct (stat w _) as [|[data|]]; [done | by exists data | done]. }
  assert (effective_source w source_path
          = parent (absolute (cwd w) source_path)) as ->.
  { unfold effective_source. cbn zeta. by rewrite Hstat. }
  assert (effective_source w (parent (absolute (cwd w) source_path))
          = parent (absolute (cwd w) source_path)) as ->; [|done].
  unfold effective_source. cbn zeta.
  rewrite (absolute_of_absolute _ (parent _))
    by (rewrite is_absolute_parent; apply is_absolute_absolute).
  by rewrite (stat_parent _ _ _ Hwf Hstat) by (by right).
Qed.

Lemma relative_to_file_source_witness :
  relative_to (of_string "/a/b/c/file.txt") (of_string "/a/x") scenario_world
  = relative_to (of_string "/a/b/c") (of_string "/a/x") scenario_world.
Proof.
  apply (relative_to_file_source scenario_world
           (of_string "/a/b/c/file.txt") (of_string "/a/x")).
  - compute_done.
  - vm_compute. reflexivity.
Defined.

(** ** Write-if-changed *)

Lemma grows_refl w : grows w w.
Proof. unfold grows. naive_solver. Qed.

Lemma grows_trans w1 w2 w3 : grows w1 w2 -> grows w2 w3 -> grows w1 w3.
Proof.
  intros (Hc & Ho & Hw & Hold & Hnew) (Hc' & Ho' & Hw' & Hold' & Hnew').
  split; [congruence|]. split; [congruence|]. split; [congruence|].
  split; [auto|]. intros key v Hv.
  destruct (Hnew' key v Hv) as [Hv2|[Hnone ->]].
  - auto.
  - right. split; [|done].
    destruct (files w1 !! key) as [v1|] eqn:Hv1; [|done].
    apply Hold in Hv1. congruence.
Qed.

Lemma os_mkdir_grows p w u w' : os_mkdir p w = inr (u, w') -> grows w w'.
Proof.
  unfold os_mkdir, create.
  destruct (locate w p) as [e|names]; [done|].
  destruct (files w !! names) as [v|] eqn:Hnone; [done|].
  destruct names as [|n names]; [done|].
  destruct (files w !! removelast (n :: names)) as [[]|]; [done| |done].
  intros [= _ <-]. unfold grows. simpl.
  split; [done|]. split; [done|]. split; [done|]. split.
  - intros key v Hv. rewrite lookup_insert_ne; [done | congruence].
  - intros key v [[<- <-]|[_ Hv]]%lookup_insert_Some; auto.
Qed.

Lemma mkdir_one_grows p exist_ok w u w' :
  mkdir_one p exist_ok w = inr (u, w') -> grows w w'.
Proof.
  unfold mkdir_one, try_os.
  destruct (os_mkdir p w) as [[msg|e]|[u1 w1]] eqn:Hmk.
  - done.
  - destruct e; [done|..]; unfold bind, is_dir, raise, ret;
      destruct (negb exist_ok || negb _); intros [= _ <-] || done;
      apply grows_refl.
  - intros [= _ <-]. by eapply os_mkdir_grows.
Qed.

Lemma mkdir_parents_grows r rsegs exist_ok w u w' :
  mkdir_parents r rsegs exist_ok w = inr (u, w') -> grows w w'.
Proof.
  revert exist_ok w u w'.
  induction rsegs as [|x rparent IH]; intros exist_ok w u w'; simpl;
    unfold try_os;
    destruct (os_mkdir _ w) as [[msg|e]|[u1 w1]] eqn:Hmk;
    try done; try (intros [= _ <-]; by eapply os_mkdir_grows).
  - destruct e; [done|..]; unfold bind, is_dir, raise, ret;
      destruct (negb exist_ok || negb _); intros [= _ <-] || done;
      apply grows_refl.
  - destruct e.
    + unfold bind.
      destruct (mkdir_parents r rparent true w) as [|[u2 w2]] eqn:Hrec;
        [done|].
      intros Hone%mkdir_one_grows. eapply grows_trans; [|done].
      by eapply IH.
    + unfold bind, is_dir, raise, ret.
      destruct (negb exist_ok || negb _); intros [= _ <-] || done;
        apply grows_refl.
    + unfold bind, is_dir, raise, ret.
      destruct (negb exist_ok || negb _); intros [= _ <-] || done;
        apply grows_refl.
    + unfold bind, is_dir, raise, ret.
      destruct (negb exist_ok || negb _); intros [= _ <-] || done;
        apply grows_refl.
Qed.

Lemma open_write_inv p contents w u w' :
  open_write p contents w = inr (u, w') ->
  exists names,
    cwd w' = cwd w ∧ stdout w' = stdout w ∧
    written w' = written w ++ [(names, contents)] ∧
    files w' = <[names := RegFile contents]> (files w) ∧
    files w !! names ≠ Some Directory.
Proof.
  unfold open_write, create.
  destruct (locate w p) as [e|names]; [done|].
  destruct (files w !! names) as [[data|]|] eqn:Hnames; [|done|].
  - intros [= _ <-]. exists names. simpl. by rewrite Hnames.
  - destruct names as [|n names]; [done|].
    destruct (files w !! removelast (n :: names)) as [[]|]; [done| |done].
    intros [= _ <-]. exists (n :: names). simpl. by rewrite Hnames.
Qed.

Lemma when_print_inv verbose line w u w' :
  when verbose (print line) w = inr (u, w') ->
  cwd w' = cwd w ∧ files w' = files w ∧ written w' = written w ∧
  stdout w' = stdout w ++ (if verbose then [line] else []).
Proof.
  destruct verbose; simpl; unfold print, ret; intros [= _ <-]; simpl;
    by rewrite ?app_nil_r.
Qed.

Lemma bind_inv {A B} (m : io A) (k : A -> io B) w y w' :
  bind m k w = inr (y, w') ->
  exists x w1, m w = inr (x, w1) ∧ k x w1 = inr (y, w').
Proof.
  unfold bind. destruct (m w) as [e|[x w1]]; [done|]. eauto.
Qed.

(** The three ways in which [write] comes back. *)
Lemma write_cases contents path verbose w r w' :
  write contents path verbose w = inr (r, w') ->
  cwd w' = cwd w ∧
  ((exists data,
       stat w path = inr (RegFile data) ∧
       universal_newlines data = contents ∧ r = PyBool false ∧
       files w' = files w ∧ written w' = written w ∧
       stdout w'
       = stdout w ++ (if verbose
                      then [("preserved: " ++ str path)%string] else []))
   ∨ (exists data names,
         stat w path = inr (RegFile data) ∧
         universal_newlines data ≠ contents ∧ r = PyBool true ∧
         locate w path = inr names ∧
         files w' = <[names := RegFile contents]> (files w) ∧
         written w' = written w ++ [(names, contents)] ∧
         stdout w'
         = stdout w ++ (if verbose
                        then [("rewrote: " ++ str path)%string] else []))
   ∨ (exists e w1 names,
         stat w path = inl e ∧ r = PyNone ∧ grows w w1 ∧
         files w1 !! names ≠ Some Directory ∧
         files w' = <[names := RegFile contents]> (files w1) ∧
         written w' = written w ++ [(names, contents)] ∧
         stdout w'
         = stdout w ++ (if verbose
                        then [("wrote: " ++ str path)%string] else []))).
Proof.
  unfold write. intros (e & w0 & He & Hrest)%bind_inv.
  unfold exists_ in He. injection He as <- <-.
  destruct (stat w path) as [err|[data|]] eqn:Hstat.
  - (* the destination does not exist *)
    apply bind_inv in Hrest as (e' & w0 & He' & Hrest).
    unfold exists_ in He'. rewrite Hstat in He'. injection He' as <- <-.
    cbn [negb] in Hrest.
    apply bind_inv in Hrest as (pe & w0 & Hpe & Hrest).
    unfold exists_ in Hpe. injection Hpe as <- <-.
    apply bind_inv in Hrest as (u1 & w1 & Hmk & Hrest).
    apply bind_inv in Hrest as (u2 & w2 & Hopen & Hrest).
    apply bind_inv in Hrest as (u3 & w3 & Hprint & Hret).
    unfold ret in Hret. injection Hret as <- <-.
    assert (grows w w1) as Hgrows.
    { destruct (negb _); simpl in Hmk.
      - unfold mkdir in Hmk. by eapply mkdir_parents_grows.
      - unfold ret in Hmk. injection Hmk as _ <-. apply grows_refl. }
    apply open_write_inv in Hopen
      as (names & Hc2 & Ho2 & Hw2 & Hf2 & Hnd).
    apply when_print_inv in Hprint as (Hc3 & Hf3 & Hw3 & Ho3).
    destruct Hgrows as (Hc1 & Ho1 & Hw1 & Hgrows).
    split; [congruence|]. right. right. exists err, w1, names.
    split; [done|]. split; [done|].
    split; [by split; [|split; [|split]]|].
    split; [done|]. split; [congruence|]. split; congruence.
  - (* the destination is a regular file *)
    apply bind_inv in Hrest as (old_contents & w0 & Hread & Hrest).
    unfold open_read in Hread. rewrite Hstat in Hread.
    injection Hread as <- <-.
    destruct (decide (universal_newlines data = contents)) as [Heq|Hne].
    + apply bind_inv in Hrest as (u1 & w1 & Hprint & Hret).
      unfold ret in Hret. injection Hret as <- <-.
      apply when_print_inv in Hprint as (Hc1 & Hf1 & Hw1 & Ho1).
      split; [done|]. left. by exists data.
    + apply bind_inv in Hrest as (u1 & w1 & Hopen & Hrest).
      apply bind_inv in Hrest as (u2 & w2 & Hprint & Hret).
      unfold ret in Hret. injection Hret as <- <-.
      apply when_print_inv in Hprint as (Hc2 & Hf2 & Hw2 & Ho2).
      assert (exists names, locate w path = inr names ∧
                files w !! names = Some (RegFile data)) as (names & Hloc & Hn).
      { unfold stat in Hstat. destruct (locate w path) as [|names]; [done|].
        exists names. split; [done|].
        destruct (files w !! names); congruence. }
      unfold open_write in Hopen. rewrite Hloc, Hn in Hopen.
      injection Hopen as _ <-. simpl in *.
      split; [done|]. right. left. exists data, names.
      repeat split; done.
  - (* the destination is a directory *)
    apply bind_inv in Hrest as (old_contents & w0 & Hread & _).
    unfold open_read in Hread. by rewrite Hstat in Hread.
Qed.

(** What is read never holds a carriage return, and text without one is
    read as it is. *)
Lemma universal_newlines_facts n s :
  String.length s <= n ->
  no_cr (universal_newlines s) = true ∧
  (no_cr s = true -> universal_newlines s = s).
Proof.
  revert s. induction n as [|n IH]; intros [|c s] Hlen; simpl in *;
    try done; try lia.
  destruct (Ascii.eqb c CR) eqn:Hc; simpl.
  - split; [|done]. destruct s as [|c' s]; [done|].
    destruct (Ascii.eqb c' LF); apply IH; simpl in *; lia.
  - rewrite Hc. simpl. destruct (IH s) as [IH1 IH2]; [lia|].
    split; [done|]. intros Hs. by rewrite IH2.
Qed.

Lemma no_cr_universal_newlines s : no_cr (universal_newlines s) = true.
Proof. by apply (universal_newlines_facts (String.length s)). Qed.

Lemma universal_newlines_no_cr s :
  no_cr s = true -> universal_newlines s = s.
Proof. by apply (universal_newlines_facts (String.length s)). Qed.

(** X10: [write] hands back [False] exactly when it wrote nothing; else it
    performed one physical write, of the given contents, and the file it
    wrote holds them. *)
Theorem write_return_value (contents : string) (path : Path)
  (verbose : bool) (w w' : world) (r : value)
  (Hwrite : write contents path verbose w = inr (r, w')) :
  (r = PyBool false ∧ written w' = written w ∧ files w' = files w) ∨
  (r ≠ PyBool false ∧
   exists names,
     written w' = written w ++ [(names, contents)] ∧
     files w' !! names = Some (RegFile contents)).
Proof.
  apply write_cases in Hwrite
    as [_ [(data & _ & _ & -> & Hf & Hw & _)
          |[(data & names & _ & _ & -> & _ & Hf & Hw & _)
           |(e & w1 & names & _ & -> & _ & _ & Hf & Hw & _)]]].
  - by left.
  - right. split; [done|]. exists names. split; [done|].
    rewrite Hf. apply lookup_insert_eq.
  - right. split; [done|]. exists names. split; [done|].
    rewrite Hf. apply lookup_insert_eq.
Qed.

Lemma write_return_value_witness :
  exists names,
    written scenario_written = written bare_world ++ [(names, "X")] ∧
    files scenario_written !! names = Some (RegFile "X").
Proof.
  destruct (write_return_value "X" (of_string "/new/deep/path/f.txt")
              false bare_world scenario_written PyNone)
    as [[? _]|[_ Hnames]]; [vm_compute; reflexivity | done | exact Hnames].
Defined.



(** X12: when verbose, [write] prints exactly one line, which names the
    outcome that the returned value stands for and the path as given;
    when not verbose it prints nothing. *)
Theorem write_prints (contents : string) (path : Path)
  (verbose : bool) (w w' : world) (r : value)
  (Hwrite : write contents path verbose w = inr (r, w')) :
  stdout w'
  = stdout w
    ++ (if verbose
        then [((match r with
                | PyBool false => "preserved: "
                | PyBool true => "rewrote: "
                | PyNone => "wrote: "
                end) ++ str path)%string]
        else []).
Proof.
  apply write_cases in Hwrite
    as [_ [(data & _ & _ & -> & _ & _ & Ho)
          |[(data & names & _ & _ & -> & _ & _ & _ & Ho)
           |(e & w1 & names & _ & -> & _ & _ & _ & _ & Ho)]]]; done.
Qed.

Lemma write_prints_witness :
  exists w',
    write "X" (of_string "/new/deep/path/f.txt") true bare_world
    = inr (PyNone, w') ∧
    stdout w' = ["wrote: /new/deep/path/f.txt"].
Proof.
  exists (written_world bare_world Slash ["new"; "deep"; "path"] "f.txt"
                        "X" true).
  assert (write "X" (of_string "/new/deep/path/f.txt") true bare_world
          = inr (PyNone,
                 written_world bare_world Slash ["new"; "deep"; "path"]
                               "f.txt" "X" true)) as Hwrite
    by (vm_compute; reflexivity).
  split; [exact Hwrite|].
  exact (write_prints _ _ _ _ _ _ Hwrite).
Defined.

(** X13: contents that hold a carriage return are never found unchanged:
    [write] does not hand back [False] for them, whatever the file
    holds. *)
Theorem write_carriage_return_never_preserved (contents : string)
  (path : Path) (verbose : bool) (w w' : world) (r : value)
  (Hcr : no_cr contents = false)
  (Hwrite : write contents path verbose w = inr (r, w')) :
  r ≠ PyBool false.
Proof.
  apply write_cases in Hwrite
    as [_ [(data & _ & Hsame & _)
          |[(data & names & _ & _ & -> & _)
           |(e & w1 & names & _ & -> & _)]]]; [|done..].
  pose proof (no_cr_universal_newlines data) as Hno.
  rewrite Hsame in Hno. congruence.
Qed.

Lemma write_carriage_return_never_preserved_witness :
  PyBool true ≠ PyBool false.
Proof.
  apply (write_carriage_return_never_preserved text_with_cr
           (of_string "f.txt") false cr_written
           (World (cwd cr_written) (files cr_written) (stdout cr_written)
                  (written cr_written
                   ++ [(["home"; "f.txt"], text_with_cr)]))).
  - reflexivity.
  - vm_compute. reflexivity.
Defined.

(** X14: a destination that is a directory makes [write] raise
    [IsADirectoryError], from the attempt to read it. *)
Theorem write_to_directory (contents : string) (path : Path)
  (verbose : bool) (w : world)
  (Hdir : is_dir path w = inr (true, w)) :
  write contents path verbose w = inl (OSError EISDIR).
Proof.
  unfold is_dir in Hdir.
  destruct (stat w path) as [|[|]] eqn:Hstat; [done..|].
  unfold write.
  rewrite (bind_inr (exists_ path) _ w true w)
    by (unfold exists_; by rewrite Hstat).
  cbn beta iota. apply bind_inl. unfold open_read. by rewrite Hstat.
Qed.

Lemma write_to_directory_witness :
  write "X" (of_string "/a/b") true scenario_world = inl (OSError EISDIR).
Proof.
  apply write_to_directory. vm_compute. reflexivity.
Defined.

(** X15: a destination that is a regular file whose text, as read,
    equals the contents is left alone: [write] hands back [False], and
    nothing changes but, when verbose, the output, which gains the line
    that names the path. *)
Theorem write_unchanged (contents : string) (path : Path) (verbose : bool)
  (w : world) (data : string)
  (Hfile : stat w path = inr (RegFile data))
  (Hsame : universal_newlines data = contents) :
  write contents path verbose w
  = inr (PyBool false,
         World (cwd w) (files w)
               (stdout w
                ++ (if verbose
                    then [("preserved: " ++ str path)%string]
                    else []))
               (written w)).
Proof. by apply (write_preserved _ _ _ _ data). Qed.

Lemma write_unchanged_witness :
  write "text" (of_string "/a/b/c/file.txt") true scenario_world
  = inr (PyBool false,
         World [] (files scenario_world)
               ["preserved: /a/b/c/file.txt"] []).
Proof.
  apply (write_unchanged "text" (of_string "/a/b/c/file.txt") true
           scenario_world "text"); vm_compute; reflexivity.
Defined.

(** Writing over a regular file leaves every path where it led. *)
Lemma resolve_insert_file fs names data contents dir l :
  fs !! names = Some (RegFile data) ->
  resolve (<[names := RegFile contents]> fs) dir l = resolve fs dir l.
Proof.
  intros Hfile. revert dir. induction l as [|n l IH]; intros dir; [done|].
  simpl. destruct (decide (names = dir)) as [->|Hne].
  - by rewrite lookup_insert_eq, Hfile.
  - rewrite lookup_insert_ne by done.
    destruct (fs !! dir) as [[]|]; [done | apply IH | done].
Qed.

(** X16: for contents without a carriage return and a destination that
    is a regular file, a second [write] of the same contents finds them
    unchanged: it hands back [False] and writes nothing. *)
Theorem write_twice_existing (contents : string) (path : Path)
  (verbose verbose' : bool) (w w1 : world) (r : value)
  (Hcr : no_cr contents = true)
  (Hfile : is_file path w = inr (true, w))
  (Hwrite : write contents path verbose w = inr (r, w1)) :
  exists w2,
    write contents path verbose' w1 = inr (PyBool false, w2) ∧
    written w2 = written w1 ∧ files w2 = files w1.
Proof.
  assert (exists data, stat w1 path = inr (RegFile data) ∧
                       universal_newlines data = contents)
    as (data & Hstat1 & Hsame).
  { apply write_cases in Hwrite
      as [Hcwd [(data & Hstat & Hsame & _ & Hf & _)
               |[(data & names & Hstat & _ & _ & Hloc & Hf & _)
                |(e & w' & names & Hstat & _)]]].
    - exists data. split; [|done].
      unfold stat, locate in *. by rewrite Hcwd, Hf.
    - exists contents. split; [|by apply universal_newlines_no_cr].
      assert (files w !! names = Some (RegFile data)) as Hn.
      { unfold stat in Hstat. rewrite Hloc in Hstat.
        destruct (files w !! names); congruence. }
      unfold stat, locate in *. rewrite Hcwd, Hf.
      rewrite (resolve_insert_file _ _ data) by done.
      rewrite Hloc. by rewrite lookup_insert_eq.
    - unfold is_file in Hfile. by rewrite Hstat in Hfile. }
  eexists. split; [by apply (write_preserved _ _ _ _ data)|]. done.
Qed.

Lemma write_twice_existing_witness :
  exists w2,
    write "X" (of_string "/new/deep/path/f.txt") true scenario_written
    = inr (PyBool false, w2) ∧
    written w2 = written scenario_written ∧
    files w2 = files scenario_written.
Proof.
  apply (write_twice_existing "X" (of_string "/new/deep/path/f.txt")
           false true scenario_written scenario_written (PyBool false)).
  - reflexivity.
  - vm_compute. reflexivity.
  - vm_compute. reflexivity.
Defined.



(** ** The walker *)

(** Induction along the recursion of [walk]. *)
Lemma walk_ind (P : Path -> list (string * tree) -> Prop) :
  (forall root_path entries,
      (forall d, d ∈ directories (listing root_path entries) -> P d.1 d.2) ->
      P root_path entries) ->
  forall root_path entries, P root_path entries.
Proof.
  intros Hstep root_path entries.
  remember (entries_size entries) as n eqn:Hn.
  revert root_path entries Hn.
  induction n as [n IH] using lt_wf_ind. intros root_path entries ->.
  apply Hstep. intros d Hd.
  pose proof (directories_smaller (fun a b => path_lt a.1 b.1)
                                  root_path entries) as Hsmall.
  rewrite Forall_forall in Hsmall.
  by apply (IH (entries_size d.2) (Hsmall d Hd)).
Qed.

(** The subdirectories that [walk] enters are the entries that are
    directories. *)
Lemma elem_of_directories_inv root_path entries d :
  d ∈ directories (listing root_path entries) ->
  exists n, (n, Dir d.2) ∈ entries ∧ d.1 = joinpath root_path (of_names [n]).
Proof.
  unfold directories, listing.
  intros ([q t] & Hin & Hd)%list_elem_of_omap.
  rewrite sorted_perm in Hin. unfold iterdir in Hin.
  apply list_elem_of_fmap in Hin as ([n t'] & [= -> ->] & Hin).
  simpl in Hd. destruct t' as [|es]; [done|]. injection Hd as <-.
  by exists n.
Qed.

Lemma elem_of_flat_map_walk top_down l (t : triple) :
  t ∈ flat_map (fun d => walk top_down d.1 d.2) l <->
  exists d, d ∈ l ∧ t ∈ walk top_down d.1 d.2.
Proof.
  rewrite list_elem_of_In, in_flat_map.
  by setoid_rewrite list_elem_of_In.
Qed.

(** X18: [walk] yields the triple of the root directory and of every
    directory below it, and nothing else, in either order. *)
Theorem walk_yields (top_down : bool) (root_path : Path)
  (entries : list (string * tree)) (t : triple) :
  t ∈ walk top_down root_path entries <->
  t = triple_of root_path entries ∨
  exists q es, inside root_path entries q es ∧ t = triple_of q es.
Proof.
  split.
  - revert root_path entries.
    apply (walk_ind (fun root_path entries =>
             t ∈ walk top_down root_path entries ->
             t = triple_of root_path entries ∨
             exists q es, inside root_path entries q es ∧ t = triple_of q es)).
    intros root_path entries IH. rewrite walk_body, !elem_of_app.
    intros [Hown|[Hloop|Hown]].
    + destruct top_down; [|by apply elem_of_nil in Hown].
      left. by apply list_elem_of_singleton in Hown.
    + right. apply elem_of_flat_map_walk in Hloop as (d & Hd & Ht).
      pose proof (elem_of_directories_inv _ _ _ Hd) as (n & Hn & Hpath).
      destruct (IH d Hd Ht) as [->|(q & es & Hinside & ->)].
      * exists d.1, d.2. split; [|done]. rewrite Hpath.
        by apply inside_child.
      * exists q, es. split; [|done].
        eapply inside_deeper; [done|]. by rewrite <- Hpath.
    + destruct top_down; [by apply elem_of_nil in Hown|].
      left. by apply list_elem_of_singleton in Hown.
  - intros [->|(q & es & Hinside & ->)].
    + apply walk_own_triple.
    + rewrite walk_body, !elem_of_app. right. left.
      by apply walk_inside_loop.
Qed.

Lemma flat_map_Permutation {A B} (f g : A -> list B) l :
  (forall x, x ∈ l -> f x ≡ₚ g x) -> flat_map f l ≡ₚ flat_map g l.
Proof.
  induction l as [|x l IH]; intros Hfg; simpl; [done|].
  rewrite (Hfg x) by left. rewrite IH; [done|].
  intros y Hy. apply Hfg. by right.
Qed.

(** X19: the two orders yield the same triples, each as often: the
    bottom-up walk is a permutation of the top-down walk; the top-down
    walk begins with the triple of the root directory and the bottom-up
    walk ends with it. *)
Theorem walk_orders_agree (root_path : Path)
  (entries : list (string * tree)) :
  walk true root_path entries ≡ₚ walk false root_path entries ∧
  head (walk true root_path entries) = Some (triple_of root_path entries) ∧
  last (walk false root_path entries) = Some (triple_of root_path entries).
Proof.
  split; [|split].
  - revert root_path entries.
    apply (walk_ind (fun root_path entries =>
             walk true root_path entries ≡ₚ walk false root_path entries)).
    intros root_path entries IH. rewrite !walk_body. simpl.
    rewrite app_nil_r.
    rewrite (flat_map_Permutation _ (fun d => walk false d.1 d.2)) by done.
    apply Permutation_cons_append.
  - by rewrite walk_body.
  - rewrite walk_body. simpl. by rewrite last_snoc.
Qed.

(** X20: in the triple of a directory, the first list holds the paths of
    the entries that are directories and the second list the paths of all
    other entries, each path being the directory's path with the entry's
    name added. *)
Theorem triple_of_lists (root_path : Path)
  (entries : list (string * tree)) (q : Path) :
  (q ∈ (triple_of root_path entries).1.2 <->
   exists n es, (n, Dir es) ∈ entries ∧
                q = joinpath root_path (of_names [n])) ∧
  (q ∈ (triple_of root_path entries).2 <->
   exists n, (n, File) ∈ entries ∧ q = joinpath root_path (of_names [n])).
Proof.
  unfold triple_of. simpl. split.
  - rewrite list_elem_of_fmap. split.
    + intros (d & -> & Hd). apply elem_of_directories_inv in Hd as (n & ? & ?).
      by exists n, d.2.
    + intros (n & es & Hin & ->).
      exists (joinpath root_path (of_names [n]), es). split; [done|].
      by apply elem_of_directories.
  - rewrite list_elem_of_fmap. split.
    + intros ([q' t] & -> & Hin). rewrite list_elem_of_In in Hin.
      apply filter_In in Hin as [Hin Hfile]. rewrite <- list_elem_of_In in Hin.
      unfold listing in Hin. rewrite sorted_perm in Hin.
      apply list_elem_of_fmap in Hin as ([n t'] & [= -> ->] & Hin).
      destruct t'; [|done]. by exists n.
    + intros (n & Hin & ->).
      exists (joinpath root_path (of_names [n]), File). split; [done|].
      rewrite list_elem_of_In. apply filter_In. split; [|done].
      rewrite <- list_elem_of_In. unfold listing. rewrite sorted_perm.
      apply list_elem_of_fmap. by exists (n, File).
Qed.

(** ** Write-if-changed: the other outcomes *)

(** X21: a destination that is a regular file whose text, as read,
    differs from the contents is written over: [write] hands back [True],
    the file holds the contents afterwards, and that is the one physical
    write. *)
Theorem write_rewrote (contents : string) (path : Path) (verbose : bool)
  (w : world) (data : string)
  (Hfile : stat w path = inr (RegFile data))
  (Hdiffer : universal_newlines data ≠ contents) :
  exists names w',
    write contents path verbose w = inr (PyBool true, w') ∧
    files w' = <[names := RegFile contents]> (files w) ∧
    files w !! names = Some (RegFile data) ∧
    written w' = written w ++ [(names, contents)] ∧
    stat w' path = inr (RegFile contents).
Proof.
  assert (exists names, locate w path = inr names ∧
            files w !! names = Some (RegFile data)) as (names & Hloc & Hn).
  { unfold stat in Hfile. destruct (locate w path) as [|names]; [done|].
    exists names. split; [done|]. destruct (files w !! names); congruence. }
  exists names.
  exists (World (cwd w) (<[names := RegFile contents]> (files w))
                (stdout w
                 ++ (if verbose
                     then [("rewrote: " ++ str path)%string] else []))
                (written w ++ [(names, contents)])).
  split; [|split; [done|split; [done|split; [done|]]]].
  - unfold write.
    rewrite (bind_inr (exists_ path) _ w true w)
      by (unfold exists_; by rewrite Hfile).
    cbn beta iota.
    rewrite (bind_inr (open_read path) _ w (universal_newlines data) w)
      by (unfold open_read; by rewrite Hfile).
    cbn beta. rewrite decide_False by done.
    erewrite bind_inr; [|unfold open_write; by rewrite Hloc, Hn].
    destruct verbose; unfold when, bind, print, ret; simpl; [done|].
    by rewrite app_nil_r.
  - unfold stat, locate in *. simpl.
    rewrite (resolve_insert_file _ _ data) by done.
    rewrite Hloc. by rewrite lookup_insert_eq.
Qed.

Lemma write_rewrote_witness :
  exists names w',
    write "new text" (of_string "/a/b/c/file.txt") false scenario_world
    = inr (PyBool true, w') ∧
    files w' = <[names := RegFile "new text"]> (files scenario_world) ∧
    files scenario_world !! names = Some (RegFile "text") ∧
    written w' = written scenario_world ++ [(names, "new text")] ∧
    stat w' (of_string "/a/b/c/file.txt") = inr (RegFile "new text").
Proof.
  apply (write_rewrote "new text" (of_string "/a/b/c/file.txt") false
           scenario_world "text").
  - vm_compute. reflexivity.
  - discriminate.
Defined.

(** Resolution stops at a regular file. *)
Lemma resolve_through_file fs dir l n rest data :
  Forall proper l ->
  (forall l', l' `prefix_of` l -> l' ≠ l ->
              fs !! (dir ++ l') = Some Directory) ->
  fs !! (dir ++ l) = Some (RegFile data) ->
  resolve fs dir (l ++ n :: rest) = inl ENOTDIR.
Proof.
  intros Hl Hchain Hfile.
  rewrite resolve_app, resolve_proper_chain by done.
  simpl. by rewrite Hfile.
Qed.

(** X22: where an ancestor of the destination is a regular file (and the
    segments are proper names), [write] raises [NotADirectoryError]. *)
Theorem write_below_file (contents : string) (path q : Path)
  (verbose : bool) (w : world)
  (Hproper : Forall proper (segs path))
  (Hq : q ∈ parents path)
  (Hfile : is_file q w = inr (true, w)) :
  write contents path verbose w = inl (OSError ENOTDIR).
Proof.
  destruct path as [r l]. simpl in Hproper.
  apply elem_of_parents in Hq as [[Hroot [rest Hrest]] Hne].
  destruct q as [r' lq]. simpl in *. subst r' l.
  destruct rest as [|n rest]; [by rewrite app_nil_r in Hne|]. clear Hne.
  assert (exists data, stat w (MkPath r lq) = inr (RegFile data))
    as [data Hstat].
  { unfold is_file in Hfile.
    destruct (stat w _) as [|[data|]]; [done | by exists data | done]. }
  pose proof Hproper as [Hlq Hrest]%Forall_app.
  assert (resolve (files w) (start_dir w r) lq = inr (start_dir w r ++ lq)
          ∧ files w !! (start_dir w r ++ lq) = Some (RegFile data))
    as [Hres Hlook].
  { unfold stat in Hstat. rewrite locate_start_dir in Hstat. simpl in Hstat.
    destruct (resolve _ _ lq) as [|d] eqn:Hres; [done|].
    apply resolve_proper_inr in Hres as [-> _]; [|done].
    split; [done|]. destruct (files w !! _); congruence. }
  assert (forall rest', rest' ≠ [] ->
            locate w (MkPath r (lq ++ rest')) = inl ENOTDIR) as Hblocked.
  { intros [|n' rest'] ?; [done|]. rewrite locate_start_dir. simpl.
    rewrite resolve_app, Hres. simpl. by rewrite Hlook. }
  assert (forall rest', rest' ≠ [] ->
            stat w (MkPath r (lq ++ rest')) = inl ENOTDIR) as Hstat'.
  { intros rest' ?. unfold stat. by rewrite Hblocked. }
  unfold write.
  rewrite (bind_inr (exists_ _) _ w false w)
    by (unfold exists_; by rewrite Hstat').
  cbn beta iota.
  rewrite (bind_inr (exists_ _) _ w false w)
    by (unfold exists_; by rewrite Hstat').
  cbn [negb]. cbn beta iota.
  change (parent (MkPath r (lq ++ n :: rest)))
    with (MkPath r (removelast (lq ++ n :: rest))).
  assert (open_write (MkPath r (lq ++ n :: rest)) contents w
          = inl (OSError ENOTDIR)) as Hopen.
  { unfold open_write. by rewrite Hblocked. }
  destruct rest as [|n2 rest _] using rev_ind.
  - (* the parent is the regular file *)
    rewrite removelast_last.
    rewrite (bind_inr (exists_ _) _ w true w)
      by (unfold exists_; by rewrite Hstat).
    cbn [negb when].
    rewrite (bind_inr (ret tt) _ w tt w eq_refl).
    by apply bind_inl.
  - (* the regular file is further up *)
    rewrite app_comm_cons, app_assoc, removelast_last.
    rewrite (bind_inr (exists_ _) _ w false w)
      by (unfold exists_; by rewrite Hstat').
    cbn [negb when]. apply bind_inl.
    unfold mkdir. simpl.
    destruct (rev (lq ++ n :: rest)) as [|y rparent] eqn:Hrev.
    { apply (f_equal (@rev string)) in Hrev.
      rewrite rev_involutive in Hrev. by destruct lq. }
    assert (MkPath r (rev (y :: rparent)) = MkPath r (lq ++ n :: rest))
      as Hself by (by rewrite <- Hrev, rev_involutive).
    simpl. simpl in Hself. rewrite Hself. unfold try_os, os_mkdir.
    rewrite Hblocked by done. reflexivity.
Qed.

Lemma write_below_file_witness :
  write "X" (of_string "/new/deep/path/f.txt") false blocked_world
  = inl (OSError ENOTDIR).
Proof.
  apply (write_below_file "X" (of_string "/new/deep/path/f.txt")
           (of_string "/new")).
  - vm_compute. repeat constructor; discriminate.
  - apply elem_of_parents. split; [|discriminate].
    split; [reflexivity|]. by exists ["deep"; "path"; "f.txt"].
  - vm_compute. reflexivity.
Defined.

(** ** The order of a listing *)

Lemma string_compare_refl s : String.compare s s = Eq.
Proof. by apply String_as_OT.cmp_eq. Qed.

Lemma string_compare_Lt_trans a b c :
  String.compare a b = Lt -> String.compare b c = Lt ->
  String.compare a c = Lt.
Proof.
  intros Hab%String_as_OT.cmp_lt Hbc%String_as_OT.cmp_lt.
  apply String_as_OT.cmp_lt. by eapply String_as_OT.lt_trans.
Qed.

Lemma string_compare_Gt a b :
  String.compare a b = Gt <-> String.compare b a = Lt.
Proof.
  rewrite (String.compare_antisym a b).
  by destruct (String.compare b a).
Qed.

Lemma string_compare_Gt_trans a b c :
  String.compare a b = Gt -> String.compare b c = Gt ->
  String.compare a c = Gt.
Proof.
  rewrite !string_compare_Gt. eauto using string_compare_Lt_trans.
Qed.

(** No path is smaller than itself or than a smaller one. *)
Lemma parts_lt_asym a b : parts_lt a b = true -> parts_lt b a = false.
Proof.
  revert b. induction a as [|x a IH]; intros [|y b]; simpl; try done.
  rewrite (String.compare_antisym y x).
  destruct (String.compare x y); simpl; auto.
Qed.

(** "Not greater" is transitive. *)
Lemma parts_le_trans a b c :
  parts_lt b a = false -> parts_lt c b = false -> parts_lt c a = false.
Proof.
  revert b c. induction a as [|x a IH]; intros [|y b] [|z c]; simpl;
    try done.
  destruct (String.compare y x) eqn:Hyx; [|done|];
    destruct (String.compare z y) eqn:Hzy; try done.
  - apply String.compare_eq_iff in Hyx as ->.
    apply String.compare_eq_iff in Hzy as ->.
    rewrite string_compare_refl. apply IH.
  - apply String.compare_eq_iff in Hyx as ->. by rewrite Hzy.
  - apply String.compare_eq_iff in Hzy as ->. by rewrite Hyx.
  - by rewrite (string_compare_Gt_trans _ _ _ Hzy Hyx).
Qed.

(** [sorted] sorts, for a comparison with these two properties. *)
Lemma sorted_StronglySorted {A} (lt : A -> A -> bool) l :
  (forall a b, lt a b = true -> lt b a = false) ->
  (forall a b c, lt b a = false -> lt c b = false -> lt c a = false) ->
  StronglySorted (fun a b => lt b a = false) (sorted lt l).
Proof.
  intros Hasym Htrans.
  assert (forall x l,
            StronglySorted (fun a b => lt b a = false) l ->
            StronglySorted (fun a b => lt b a = false)
                           (insert_sorted lt x l)) as Hinsert.
  { clear l. intros x l. induction 1 as [|y l Hl IH Hy]; simpl.
    - repeat constructor.
    - destruct (lt y x) eqn:Hyx.
      + constructor; [done|]. rewrite insert_sorted_perm.
        constructor; [by apply Hasym | done].
      + constructor; [by constructor|].
        constructor; [done|]. eapply Forall_impl; [done|].
        intros z Hz. simpl in Hz. by eapply Htrans. }
  induction l as [|x l IH]; simpl; [constructor | by apply Hinsert].
Qed.

Lemma StronglySorted_omap {A B} (R : relation A) (R' : relation B)
  (f : A -> option B) l :
  (forall a b a' b', f a = Some a' -> f b = Some b' -> R a b -> R' a' b') ->
  StronglySorted R l -> StronglySorted R' (omap f l).
Proof.
  intros Hf. induction 1 as [|x l Hl IH Hx]; simpl; [constructor|].
  destruct (f x) as [x'|] eqn:Hfx; [|done].
  constructor; [done|]. apply Forall_forall.
  intros y' (y & Hy & Hfy)%list_elem_of_omap.
  rewrite Forall_forall in Hx. eauto.
Qed.

Lemma StronglySorted_List_filter {A} (R : relation A) (f : A -> bool) l :
  StronglySorted R l -> StronglySorted R (List.filter f l).
Proof.
  induction 1 as [|x l Hl IH Hx]; simpl; [constructor|].
  destruct (f x); [|done]. constructor; [done|].
  apply Forall_forall. intros y Hy. rewrite list_elem_of_In in Hy.
  apply filter_In in Hy as [Hy _]. rewrite <- list_elem_of_In in Hy.
  rewrite Forall_forall in Hx. auto.
Qed.

(** X23: both lists of a triple are in the order of the paths: no path
    is smaller than one before it. *)
Theorem triple_of_sorted (root_path : Path)
  (entries : list (string * tree)) :
  StronglySorted (fun a b => path_lt b a = false)
                 (triple_of root_path entries).1.2 ∧
  StronglySorted (fun a b => path_lt b a = false)
                 (triple_of root_path entries).2.
Proof.
  assert (StronglySorted
            (fun a b : Path * tree => path_lt b.1 a.1 = false)
            (listing root_path entries)) as Hsorted.
  { unfold listing.
    apply (sorted_StronglySorted (fun a b : Path * tree => path_lt a.1 b.1)).
    - intros a b. apply parts_lt_asym.
    - intros a b c. apply parts_le_trans. }
  unfold triple_of. simpl. split.
  - apply (StronglySorted_fmap fst
             (fun a b : Path * list (string * tree)
              => path_lt b.1 a.1 = false)); [done|].
    unfold directories.
    eapply StronglySorted_omap; [|done].
    intros [p1 t1] [p2 t2] a' b' Ha Hb HR. simpl in *.
    destruct t1, t2; by simplify_eq.
  - apply (StronglySorted_fmap fst
             (fun a b : Path * tree => path_lt b.1 a.1 = false)); [done|].
    by apply StronglySorted_List_filter.
Qed.

(** ** The number of triples *)

Lemma directory_count_Dir es :
  directory_count (Dir es) = S (list_sum (directory_count <$> es.*2)).
Proof.
  simpl. f_equal. induction es as [|e es IH]; simpl; [done|]. by rewrite IH.
Qed.

Lemma directory_count_File : directory_count File = 0.
Proof. reflexivity. Qed.

#[local] Arguments directory_count : simpl never.

Lemma length_flat_map_walk top_down l :
  (forall d, d ∈ l ->
             length (walk top_down d.1 d.2) = directory_count (Dir d.2)) ->
  length (flat_map (fun d => walk top_down d.1 d.2) l)
  = list_sum ((fun d => directory_count (Dir d.2)) <$> l).
Proof.
  induction l as [|d l IH]; intros Hl; [done|].
  cbn [flat_map]. rewrite fmap_cons, length_app, Hl by left.
  change (list_sum (?x :: ?k)) with (x + list_sum k).
  f_equal. apply IH.
  intros d' Hd'. apply Hl. by right.
Qed.

Lemma list_sum_directories (l : list (Path * tree)) :
  list_sum ((fun d => directory_count (Dir d.2)) <$> directories l)
  = list_sum (directory_count <$> l.*2).
Proof.
  induction l as [|[p t] l IH]; simpl; [done|].
  destruct t as [|es].
  - rewrite directory_count_File. exact IH.
  - rewrite fmap_cons.
    change (list_sum (?x :: ?k)) with (x + list_sum k).
    f_equal. exact IH.
Qed.

(** X24: [walk] yields as many triples as the tree has directories, the
    root directory counted. *)
Theorem walk_length (top_down : bool) (root_path : Path)
  (entries : list (string * tree)) :
  length (walk top_down root_path entries) = directory_count (Dir entries).
Proof.
  revert root_path entries.
  apply (walk_ind (fun root_path entries =>
           length (walk top_down root_path entries)
           = directory_count (Dir entries))).
  intros root_path entries IH.
  rewrite walk_body, !length_app, length_flat_map_walk by done.
  rewrite list_sum_directories, directory_count_Dir.
  assert (list_sum (directory_count <$> (listing root_path entries).*2)
          = list_sum (directory_count <$> entries.*2)) as ->.
  { unfold listing. rewrite sorted_perm. unfold iterdir.
    f_equal. f_equal. rewrite <- list_fmap_compose.
    by apply list_fmap_ext. }
  destruct top_down; simpl; lia.
Qed.
